(** * IELTS answer validation: a shallow embedding of the answer checker

    The checker is a library of pure functions over JavaScript strings.
    A string is modelled as the list of its UTF-16 code units; every
    built-in the checker calls ([toLowerCase], [trim], [split],
    [replace], [match]) is written out below, the regular expressions
    are values of a small regex type executed by a backtracking matcher
    that follows ECMAScript's matching order (greedy quantifiers,
    ordered alternation, leftmost match).

    Case mapping is modelled on Basic Latin, the range in which the
    tables and the patterns of the checker are written: [toLowerCase]
    maps A-Z to a-z and leaves every other code unit unchanged. *)

From Stdlib Require Import List NArith Bool Arith Lia String Ascii.
Import ListNotations.

Local Open Scope N_scope.
Local Open Scope list_scope.

(** ** JavaScript strings *)

Module Js.

(** A code unit is a number below 2^16, a string is a list of them. *)
Definition jsstring : Type := list N.

(** A string literal of the source made of Basic Latin characters only. *)
Definition lit (s : string) : jsstring :=
  List.map N_of_ascii (list_ascii_of_string s).

(** [a === b] on strings. *)
Fixpoint str_eqb (a b : jsstring) : bool :=
  match a, b with
  | [], [] => true
  | x :: a', y :: b' => (x =? y) && str_eqb a' b'
  | _, _ => false
  end.

(** [!s] is true of the empty string only. *)
Definition falsy (s : jsstring) : bool :=
  match s with [] => true | _ :: _ => false end.

(** *** Character classes *)

Definition in_range (lo hi c : N) : bool := (lo <=? c) && (c <=? hi).

(** [\s]: ECMAScript WhiteSpace and LineTerminator; [trim] strips the
    same set. *)
Definition is_ws (c : N) : bool :=
  in_range 9 13 c || (c =? 32) || (c =? 160) || (c =? 5760)
  || in_range 8192 8202 c || (c =? 8232) || (c =? 8233) || (c =? 8239)
  || (c =? 8287) || (c =? 12288) || (c =? 65279).

Definition not_ws (c : N) : bool := negb (is_ws c).

(** [\d] *)
Definition is_digit (c : N) : bool := in_range 48 57 c.

(** [\w] *)
Definition is_word (c : N) : bool :=
  in_range 97 122 c || in_range 65 90 c || is_digit c || (c =? 95).

(** [toLowerCase] and [toUpperCase] of one code unit.  The tables and
    the patterns of the checker are written in Basic Latin; the case
    mapping is modelled on that range and leaves other code units
    unchanged. *)
Definition lower_unit (c : N) : N := if in_range 65 90 c then c + 32 else c.
Definition upper_unit (c : N) : N := if in_range 97 122 c then c - 32 else c.

Definition toLowerCase (s : jsstring) : jsstring := List.map lower_unit s.

(** [String.prototype.toLowerCase] is the Unicode case mapping: outside
    Basic Latin it lowers other letters as well, chooses the form of a
    sigma by its neighbours and writes U+0130 as two code units.  On a
    string made of Basic Latin units and white space it is [toLowerCase]
    above; [basic_latin] recognizes these strings.  A statement whose
    verdict depends on how other units are lowered is made for them. *)
Definition basic_unit (c : N) : bool := (c <? 128) || is_ws c.
Definition basic_latin (s : jsstring) : bool := forallb basic_unit s.

(** *** trim, split, concatenation *)

Fixpoint trimStart (s : jsstring) : jsstring :=
  match s with
  | [] => []
  | c :: s' => if is_ws c then trimStart s' else s
  end.

Definition trimEnd (s : jsstring) : jsstring := rev (trimStart (rev s)).

Definition trim (s : jsstring) : jsstring := trimEnd (trimStart s).

(** [s.split(sep)] for a one-unit separator: never the empty array,
    [''.split('/')] is [['']]. *)
Fixpoint split (sep : N) (s : jsstring) : list jsstring :=
  match s with
  | [] => [[]]
  | c :: s' =>
      if c =? sep then [] :: split sep s'
      else match split sep s' with
           | [] => [[c]]
           | w :: ws => (c :: w) :: ws
           end
  end.

(** *** Closed forms of the one-class replacements

    The checker replaces classes and runs of a class all over a string;
    these two functions say what such a replacement computes, and are
    shown below to be what the general replacement does on these
    patterns. *)

(** [s.replace(/[class]/g, by)] *)
Definition replace_class (p : N -> bool) (by_ : jsstring) (s : jsstring)
  : jsstring :=
  flat_map (fun c => if p c then by_ else [c]) s.

(** [s.replace(/[class]+/g, by)]: every maximal run is replaced once. *)
Fixpoint replace_runs_from (p : N -> bool) (by_ : jsstring)
         (in_run : bool) (s : jsstring) : jsstring :=
  match s with
  | [] => []
  | c :: s' =>
      if p c
      then (if in_run then [] else by_) ++ replace_runs_from p by_ true s'
      else c :: replace_runs_from p by_ false s'
  end.

Definition replace_runs (p : N -> bool) (by_ : jsstring) (s : jsstring)
  : jsstring := replace_runs_from p by_ false s.

(** [arr.join(sep)] for a one-unit separator: the inverse of [split] on
    pieces free of the separator. *)
Fixpoint join (sep : N) (l : list jsstring) : jsstring :=
  match l with
  | [] => []
  | a :: rest =>
      match rest with
      | [] => a
      | _ :: _ => a ++ sep :: join sep rest
      end
  end.

End Js.

(** ** Regular expressions *)

Module Re.
Import Js.

(** The fragment of the regex language the checker uses.  A quantifier
    over a single class is [Rep]; [Opt] is [?] over any pattern. *)
Inductive regex : Type :=
| Eps
| Class (p : N -> bool)
| Bol
| Eol
| Cat (r1 r2 : regex)
| Alt (r1 r2 : regex)
| Opt (r : regex)
| Rep (p : N -> bool) (lo : nat) (hi : option nat)
| Group (i : nat) (r : regex).

(** Captures: group number to captured text; an absent entry is
    [undefined]. *)
Definition captures : Type := list (nat * jsstring).

Fixpoint capture (i : nat) (cs : captures) : option jsstring :=
  match cs with
  | [] => None
  | (j, v) :: cs' => if Nat.eqb i j then Some v else capture i cs'
  end.

(** End position, text after the match, captures. *)
Definition outcome : Type := (nat * jsstring * captures)%type.

Definition orelse {A : Type} (a b : option A) : option A :=
  match a with Some _ => a | None => b end.

Definition can_more (hi : option nat) : bool :=
  match hi with Some O => false | _ => true end.

(** Greedy [class{lo,hi}]: take one more unit while allowed, give back
    one at a time when the rest of the pattern fails. *)
Fixpoint rep (p : N -> bool) (lo : nat) (hi : option nat) (pos : nat)
         (s : jsstring) (k : nat -> jsstring -> option outcome)
  : option outcome :=
  let stop := match lo with O => k pos s | S _ => None end in
  match s with
  | [] => stop
  | c :: s' =>
      if p c && can_more hi
      then orelse (rep p (Nat.pred lo) (option_map Nat.pred hi) (S pos) s' k)
                  stop
      else stop
  end.

(** The matcher, in continuation-passing style: [k] is the rest of the
    pattern, [pos] the index of the next unit, [s] the text from [pos]. *)
Fixpoint re_match (r : regex) (pos : nat) (s : jsstring) (cs : captures)
         (k : nat -> jsstring -> captures -> option outcome)
  : option outcome :=
  match r with
  | Eps => k pos s cs
  | Class p =>
      match s with
      | c :: s' => if p c then k (S pos) s' cs else None
      | [] => None
      end
  | Bol => match pos with O => k pos s cs | S _ => None end
  | Eol => match s with [] => k pos s cs | _ :: _ => None end
  | Cat r1 r2 =>
      re_match r1 pos s cs (fun pos' s' cs' => re_match r2 pos' s' cs' k)
  | Alt r1 r2 =>
      orelse (re_match r1 pos s cs k) (re_match r2 pos s cs k)
  | Opt r1 =>
      (* an iteration that matches the empty string is refused *)
      orelse (re_match r1 pos s cs
                (fun pos' s' cs' =>
                   if Nat.eqb pos' pos then None else k pos' s' cs'))
             (k pos s cs)
  | Rep p lo hi => rep p lo hi pos s (fun pos' s' => k pos' s' cs)
  | Group i r1 =>
      re_match r1 pos s cs
        (fun pos' s' cs' => k pos' s' ((i, firstn (pos' - pos) s) :: cs'))
  end.

Definition accept : nat -> jsstring -> captures -> option outcome :=
  fun pos s cs => Some (pos, s, cs).

(** [re.exec(s)]: the leftmost position where the pattern matches. *)
Fixpoint exec_from (r : regex) (pos : nat) (s : jsstring) : option captures :=
  match re_match r pos s [] accept with
  | Some (_, _, cs) => Some cs
  | None =>
      match s with
      | [] => None
      | _ :: s' => exec_from r (S pos) s'
      end
  end.

(** [s.match(re)] for a pattern without the g flag. *)
Definition exec (r : regex) (s : jsstring) : option captures :=
  exec_from r 0 s.

Definition test (r : regex) (s : jsstring) : bool :=
  match exec r s with Some _ => true | None => false end.

(** [s.replace(re, by)] without the g flag: the first match only. *)
Fixpoint replace_first_from (r : regex) (by_ : captures -> jsstring)
         (pos : nat) (s : jsstring) : jsstring :=
  match re_match r pos s [] accept with
  | Some (_, rest, cs) => by_ cs ++ rest
  | None =>
      match s with
      | [] => []
      | c :: s' => c :: replace_first_from r by_ (S pos) s'
      end
  end.

Definition replace_first (r : regex) (by_ : captures -> jsstring)
           (s : jsstring) : jsstring :=
  replace_first_from r by_ 0 s.

(** [s.replace(re, by)] with the g flag: matches are found left to
    right, each search resuming where the previous match ended;
    [skip] counts the units of the current match still to drop. *)
Fixpoint replace_all_from (r : regex) (by_ : captures -> jsstring)
         (skip : nat) (pos : nat) (s : jsstring) : jsstring :=
  match s with
  | [] =>
      match skip with
      | O => match re_match r pos [] [] accept with
             | Some (_, _, cs) => by_ cs
             | None => []
             end
      | S _ => []
      end
  | c :: s' =>
      match skip with
      | S n => replace_all_from r by_ n (S pos) s'
      | O =>
          match re_match r pos s [] accept with
          | Some (e, _, cs) =>
              by_ cs ++
              match (e - pos)%nat with
              | O => c :: replace_all_from r by_ O (S pos) s'
              | S n => replace_all_from r by_ n (S pos) s'
              end
          | None => c :: replace_all_from r by_ O (S pos) s'
          end
      end
  end.

Definition replace_all (r : regex) (by_ : captures -> jsstring)
           (s : jsstring) : jsstring :=
  replace_all_from r by_ 0 0 s.

(** *** Writing patterns *)

Definition chr (c : N) : regex := Class (N.eqb c).

(** A literal under the i flag: units are compared after Canonicalize,
    which on a Basic Latin letter accepts exactly its two cases. *)
Definition chr_i (c : N) : regex :=
  Class (fun x => upper_unit x =? upper_unit c).

Fixpoint seq (rs : list regex) : regex :=
  match rs with
  | [] => Eps
  | [r] => r
  | r :: rs' => Cat r (seq rs')
  end.

Definition word (s : string) : regex := seq (List.map chr (lit s)).
Definition word_i (s : string) : regex := seq (List.map chr_i (lit s)).

Definition plus (p : N -> bool) : regex := Rep p 1 None.
Definition star (p : N -> bool) : regex := Rep p 0 None.

(** [$n] in a replacement; an unmatched group gives the empty string. *)
Definition dollar (i : nat) (cs : captures) : jsstring :=
  match capture i cs with Some v => v | None => [] end.

(** Length of the longest prefix in the class. *)
Fixpoint run_length (p : N -> bool) (s : jsstring) : nat :=
  match s with
  | [] => 0
  | c :: s' => if p c then S (run_length p s') else 0
  end.

End Re.

(** ** The answer checker *)

Module Ielts.
Import Js Re.

Local Notation "a === b" := (str_eqb a b) (at level 70, no associativity).

(** A [Record<string, string[]>] table: keys with their values, in the
    order [Object.values] enumerates them. *)
Definition table : Type := list (string * list jsstring).

Definition values (t : table) : list (list jsstring) := List.map snd t.

(** [arr.includes(x)], [arr.some(w => w === x)] *)
Definition includes (x : jsstring) (arr : list jsstring) : bool :=
  existsb (fun w => w === x) arr.

(** The keys of NUMBER_WORDS are integer indices, which [Object.values]
    visits in ascending order: the order they are written in. *)
Definition NUMBER_WORDS : table :=
  [ ("0", [lit "zero"; lit "o"; lit "oh"; lit "0"]);
    ("1", [lit "one"; lit "1"]);
    ("2", [lit "two"; lit "2"]);
    ("3", [lit "three"; lit "3"]);
    ("4", [lit "four"; lit "4"]);
    ("5", [lit "five"; lit "5"]);
    ("6", [lit "six"; lit "6"]);
    ("7", [lit "seven"; lit "7"]);
    ("8", [lit "eight"; lit "8"]);
    ("9", [lit "nine"; lit "9"]);
    ("10", [lit "ten"; lit "10"]);
    ("11", [lit "eleven"; lit "11"]);
    ("12", [lit "twelve"; lit "12"]);
    ("13", [lit "thirteen"; lit "13"]);
    ("14", [lit "fourteen"; lit "14"]);
    ("15", [lit "fifteen"; lit "15"]);
    ("16", [lit "sixteen"; lit "16"]);
    ("17", [lit "seventeen"; lit "17"]);
    ("18", [lit "eighteen"; lit "18"]);
    ("19", [lit "nineteen"; lit "19"]);
    ("20", [lit "twenty"; lit "20"]);
    ("30", [lit "thirty"; lit "30"]);
    ("40", [lit "forty"; lit "40"]);
    ("50", [lit "fifty"; lit "50"]);
    ("60", [lit "sixty"; lit "60"]);
    ("70", [lit "seventy"; lit "70"]);
    ("80", [lit "eighty"; lit "80"]);
    ("90", [lit "ninety"; lit "90"]);
    ("100", [lit "hundred"; lit "one hundred"; lit "100"]);
    ("1000", [lit "thousand"; lit "one thousand"; lit "1000"; lit "1,000"]);
    ("1000000",
      [lit "million"; lit "one million"; lit "1000000"; lit "1,000,000"])
  ]%string.

Definition MEASUREMENT_VARIATIONS : table :=
  [ ("km", [lit "km"; lit "kms"; lit "kilometre"; lit "kilometres";
            lit "kilometer"; lit "kilometers"]);
    ("m", [lit "m"; lit "metre"; lit "metres"; lit "meter"; lit "meters"]);
    ("cm", [lit "cm"; lit "centimetre"; lit "centimetres";
            lit "centimeter"; lit "centimeters"]);
    ("mm", [lit "mm"; lit "millimetre"; lit "millimetres";
            lit "millimeter"; lit "millimeters"]);
    ("kg", [lit "kg"; lit "kgs"; lit "kilogram"; lit "kilograms";
            lit "kilo"; lit "kilos"]);
    ("g", [lit "g"; lit "gram"; lit "grams"]);
    ("mg", [lit "mg"; lit "milligram"; lit "milligrams"]);
    ("l", [lit "l"; lit "litre"; lit "litres"; lit "liter"; lit "liters"]);
    ("ml", [lit "ml"; lit "millilitre"; lit "millilitres";
            lit "milliliter"; lit "milliliters"]);
    ("ft", [lit "ft"; lit "foot"; lit "feet"]);
    ("in", [lit "in"; lit "inch"; lit "inches"]);
    ("mi", [lit "mi"; lit "mile"; lit "miles"]);
    ("lb", [lit "lb"; lit "lbs"; lit "pound"; lit "pounds"]);
    ("oz", [lit "oz"; lit "ounce"; lit "ounces"])
  ]%string.

(** The currency signs as code units: dollar 36, pound 163, euro 8364,
    yen 165.  The keys of the table, which the checker never reads, are
    spelled in words. *)
Definition DOLLAR : N := 36.
Definition POUND : N := 163.
Definition EURO : N := 8364.
Definition YEN : N := 165.

Definition CURRENCY_VARIATIONS : table :=
  [ ("$", [[DOLLAR]; lit "dollar"; lit "dollars"; lit "usd"]);
    ("pound sign", [[POUND]; lit "pound"; lit "pounds"; lit "gbp"]);
    ("euro sign", [[EURO]; lit "euro"; lit "euros"; lit "eur"]);
    ("yen sign", [[YEN]; lit "yen"; lit "jpy"])
  ]%string.

(** *** Normalizer *)

Definition APOSTROPHE : N := 39.
Definition QUOTE : N := 34.
Definition SPACE : N := 32.
Definition SLASH : N := 47.
Definition COMMA : N := 44.
Definition HYPHEN : N := 45.

(** The two classes of the source hold the plain apostrophe and the
    plain double quote, each written twice. *)
Definition normalizeString (str : jsstring) : jsstring :=
  replace_all (Class (fun c => (c =? QUOTE) || (c =? QUOTE)))
    (fun _ => [QUOTE])
    (replace_all (Class (fun c => (c =? APOSTROPHE) || (c =? APOSTROPHE)))
       (fun _ => [APOSTROPHE])
       (replace_all (plus is_ws) (fun _ => lit " ")
          (trim (toLowerCase str)))).

(** [str.replace(/\s+/g, '')] *)
Definition removeAllSpaces (str : jsstring) : jsstring :=
  replace_all (plus is_ws) (fun _ => []) str.

(** [s.replace(/,/g, '')] *)
Definition remove_commas (s : jsstring) : jsstring :=
  replace_all (chr COMMA) (fun _ => []) s.

(** *** Date *)

Definition ordinal_suffix : regex :=
  Opt (Alt (word_i "st") (Alt (word_i "nd") (Alt (word_i "rd") (word_i "th")))).

Definition slash_or_dash (c : N) : bool := (c =? 47) || (c =? 45).

Definition datePatterns : list regex :=
  [ (* /^(\w+)\s+(\d{1,2})(?:st|nd|rd|th)?$/i *)
    seq [Bol; Group 1 (plus is_word); plus is_ws;
         Group 2 (Rep is_digit 1 (Some 2%nat)); ordinal_suffix; Eol];
    (* /^(\d{1,2})(?:st|nd|rd|th)?\s+(?:of\s+)?(\w+)$/i *)
    seq [Bol; Group 1 (Rep is_digit 1 (Some 2%nat)); ordinal_suffix;
         plus is_ws; Opt (Cat (word_i "of") (plus is_ws));
         Group 2 (plus is_word); Eol];
    (* /^(\d{1,2})[\/\-](\d{1,2})$/ *)
    seq [Bol; Group 1 (Rep is_digit 1 (Some 2%nat)); Class slash_or_dash;
         Group 2 (Rep is_digit 1 (Some 2%nat)); Eol];
    (* /^(\d{4})[\/\-](\d{1,2})[\/\-](\d{1,2})$/ *)
    seq [Bol; Group 1 (Rep is_digit 4 (Some 4%nat)); Class slash_or_dash;
         Group 2 (Rep is_digit 1 (Some 2%nat)); Class slash_or_dash;
         Group 3 (Rep is_digit 1 (Some 2%nat)); Eol]
  ].

(** The loop of [matchDate]: the first pattern that matches both
    operands ends it with [true]. *)
Fixpoint matchDate_loop (patterns : list regex) (user correct : jsstring)
  : bool :=
  match patterns with
  | [] => false
  | pattern :: rest =>
      if test pattern user && test pattern correct then true
      else matchDate_loop rest user correct
  end.

Definition matchDate (userAnswer correctAnswer : jsstring) : bool :=
  let user := normalizeString userAnswer in
  let correct := normalizeString correctAnswer in
  matchDate_loop datePatterns user correct.

(** *** Time *)

Definition dot_or_colon (c : N) : bool := (c =? 46) || (c =? 58).

Definition normalizeAmPm (s : jsstring) : jsstring :=
  replace_all
    (* /o'?clock/gi *)
    (seq [chr_i 111; Opt (chr APOSTROPHE); word_i "clock"])
    (fun _ => [])
    (replace_all
       (* /p\.?m\.?/gi *)
       (seq [chr_i 112; Opt (chr 46); chr_i 109; Opt (chr 46)])
       (fun _ => lit "pm")
       (replace_all
          (* /a\.?m\.?/gi *)
          (seq [chr_i 97; Opt (chr 46); chr_i 109; Opt (chr 46)])
          (fun _ => lit "am")
          s)).

Definition matchTime (userAnswer correctAnswer : jsstring) : bool :=
  let user :=
    replace_all (Class dot_or_colon) (fun _ => [])
      (removeAllSpaces (normalizeString userAnswer)) in
  let correct :=
    replace_all (Class dot_or_colon) (fun _ => [])
      (removeAllSpaces (normalizeString correctAnswer)) in
  normalizeAmPm user === normalizeAmPm correct.

(** *** Number *)

Definition normalizeNum (s : jsstring) : jsstring :=
  trim (replace_all (plus is_ws) (fun _ => [])
          (remove_commas (toLowerCase s))).

Fixpoint matchNumber_loop (sets : list (list jsstring))
         (user correct : jsstring) : bool :=
  match sets with
  | [] => false
  | words :: rest =>
      if includes user words && includes correct words then true
      else matchNumber_loop rest user correct
  end.

Definition matchNumber (userAnswer correctAnswer : jsstring) : bool :=
  let user := normalizeNum userAnswer in
  let correct := normalizeNum correctAnswer in
  if user === correct then true
  else matchNumber_loop (values NUMBER_WORDS) user correct.

(** *** Measurement *)

Definition digit_comma_dot (c : N) : bool :=
  is_digit c || (c =? 44) || (c =? 46).

(** /^([\d,.]+)\s*(\w+)$/ *)
Definition measurePattern : regex :=
  seq [Bol; Group 1 (plus digit_comma_dot); star is_ws;
       Group 2 (plus is_word); Eol].

(** The measurement pattern in words: a number, white space or none,
    a unit word, and nothing else. *)
Definition measure_shape (s num unit_word : jsstring) : Prop :=
  exists space,
    s = num ++ space ++ unit_word
    /\ num <> [] /\ forallb digit_comma_dot num = true
    /\ forallb is_ws space = true
    /\ unit_word <> [] /\ forallb is_word unit_word = true.

Definition starts_with_digit (s : jsstring) : bool :=
  match s with
  | c :: _ => is_digit c
  | [] => false
  end.

(** The loop over the unit families: the first family holding both
    units ends it with [numsMatch]. *)
Fixpoint matchMeasurement_loop (sets : list (list jsstring))
         (userUnit correctUnit : jsstring) (numsMatch : bool) : bool :=
  match sets with
  | [] => false
  | variations :: rest =>
      if includes (toLowerCase userUnit) variations
         && includes (toLowerCase correctUnit) variations
      then numsMatch
      else matchMeasurement_loop rest userUnit correctUnit numsMatch
  end.

Definition matchMeasurement (userAnswer correctAnswer : jsstring) : bool :=
  let user := normalizeString userAnswer in
  let correct := normalizeString correctAnswer in
  match exec measurePattern user, exec measurePattern correct with
  | Some userMatch, Some correctMatch =>
      let userNum := dollar 1 userMatch in
      let userUnit := dollar 2 userMatch in
      let correctNum := dollar 1 correctMatch in
      let correctUnit := dollar 2 correctMatch in
      let numsMatch := remove_commas userNum === remove_commas correctNum in
      matchMeasurement_loop (values MEASUREMENT_VARIATIONS)
        userUnit correctUnit numsMatch
  | _, _ => false
  end.

(** *** Currency *)

Definition currency_sign (c : N) : bool :=
  (c =? POUND) || (c =? DOLLAR) || (c =? EURO) || (c =? YEN).

(** The currency pattern: from the start, group 1 an optional currency
    sign, [\s] any number of times, group 2 one or more of [\d,.],
    [\s] any number of times, optionally group 3 of any number of
    [a-z], then the end. *)
Definition currencyPattern : regex :=
  seq [Bol; Group 1 (Opt (Class currency_sign)); star is_ws;
       Group 2 (plus digit_comma_dot); star is_ws;
       Opt (Group 3 (star (in_range 97 122))); Eol].

(** [v === symbol || v === word?.toLowerCase()], where [word] may be
    [undefined]. *)
Definition hasCurrency (symbol : jsstring) (word : option jsstring)
           (variations : list jsstring) : bool :=
  existsb
    (fun v =>
       (v === symbol)
       || match word with
          | Some w => v === toLowerCase w
          | None => false
          end)
    variations.

Fixpoint matchCurrency_loop (sets : list (list jsstring))
         (userSymbol : jsstring) (userWord : option jsstring)
         (correctSymbol : jsstring) (correctWord : option jsstring) : bool :=
  match sets with
  | [] => false
  | variations :: rest =>
      if hasCurrency userSymbol userWord variations
         && hasCurrency correctSymbol correctWord variations
      then true
      else matchCurrency_loop rest userSymbol userWord
             correctSymbol correctWord
  end.

Definition matchCurrency (userAnswer correctAnswer : jsstring) : bool :=
  let user := normalizeString userAnswer in
  let correct := normalizeString correctAnswer in
  match exec currencyPattern user, exec currencyPattern correct with
  | Some userMatch, Some correctMatch =>
      let userSymbol := dollar 1 userMatch in
      let userAmount := dollar 2 userMatch in
      let userWord := capture 3 userMatch in
      let correctSymbol := dollar 1 correctMatch in
      let correctAmount := dollar 2 correctMatch in
      let correctWord := capture 3 correctMatch in
      if negb (remove_commas userAmount === remove_commas correctAmount)
      then false
      else matchCurrency_loop (values CURRENCY_VARIATIONS)
             userSymbol userWord correctSymbol correctWord
  | _, _ => false
  end.

(** *** Phone number *)

Definition letter_o (c : N) : bool := (c =? 111) || (c =? 79).

(* /double\s*(\d)/gi *)
Definition doublePattern : regex :=
  seq [word_i "double"; star is_ws; Group 1 (Class is_digit)].

(* /triple\s*(\d)/gi *)
Definition triplePattern : regex :=
  seq [word_i "triple"; star is_ws; Group 1 (Class is_digit)].

Definition normalizePhone (s : jsstring) : jsstring :=
  replace_all triplePattern
    (fun m => dollar 1 m ++ dollar 1 m ++ dollar 1 m)
    (replace_all doublePattern
       (fun m => dollar 1 m ++ dollar 1 m)
       (replace_all (Class letter_o) (fun _ => lit "0")
          (replace_all (plus is_ws) (fun _ => []) (toLowerCase s)))).

Definition matchPhoneNumber (userAnswer correctAnswer : jsstring) : bool :=
  normalizePhone userAnswer === normalizePhone correctAnswer.

(** *** The equivalence engine *)

(** /^the\s+/ then /\s+the$/, each replaced once *)
Definition withoutThe (s : jsstring) : jsstring :=
  replace_first (seq [plus is_ws; word "the"; Eol]) (fun _ => [])
    (replace_first (seq [Bol; word "the"; plus is_ws]) (fun _ => []) s).

(** /^(a|an)\s+/ *)
Definition withoutArticle (s : jsstring) : jsstring :=
  replace_first
    (seq [Bol; Group 1 (Alt (word "a") (word "an")); plus is_ws])
    (fun _ => []) s.

Definition withoutHyphens (s : jsstring) : jsstring :=
  replace_all (chr HYPHEN) (fun _ => lit " ") s.

(** The body of the loop over the acceptable answers: [true] when one
    of its [return true] is reached. *)
Definition check_alternative (user correct : jsstring) : bool :=
  if user === correct then true
  else if removeAllSpaces user === removeAllSpaces correct then true
  else if matchTime user correct then true
  else if matchNumber user correct then true
  else if matchMeasurement user correct then true
  else if matchCurrency user correct then true
  else if matchPhoneNumber user correct then true
  else if matchDate user correct then true
  else if withoutThe user === withoutThe correct then true
  else if withoutArticle user === withoutArticle correct then true
  else if (user ++ lit "s" === correct) || (user === correct ++ lit "s")
       then true
  else if (user ++ lit "es" === correct) || (user === correct ++ lit "es")
       then true
  else if withoutHyphens user === withoutHyphens correct then true
  else if replace_all (chr SPACE) (fun _ => lit "-") user === correct
       then true
  else false.

Fixpoint checkIelts_loop (user : jsstring) (acceptableAnswers : list jsstring)
  : bool :=
  match acceptableAnswers with
  | [] => false
  | correct :: rest =>
      if check_alternative user correct then true
      else checkIelts_loop user rest
  end.

Definition acceptableAnswers (correctAnswers : jsstring) : list jsstring :=
  List.map (fun a => normalizeString (trim a)) (split SLASH correctAnswers).

Definition checkIeltsAnswer (userAnswer correctAnswers : jsstring) : bool :=
  if falsy userAnswer || falsy correctAnswers then false
  else
    let user := normalizeString userAnswer in
    checkIelts_loop user (acceptableAnswers correctAnswers).

(** *** Multiple selection *)

(** [new Set(arr)]: the distinct values in insertion order. *)
Fixpoint Set_add (x : jsstring) (s : list jsstring) : list jsstring :=
  match s with
  | [] => [x]
  | y :: s' => if y === x then s else y :: Set_add x s'
  end.

Definition Set_of (arr : list jsstring) : list jsstring :=
  fold_left (fun s x => Set_add x s) arr [].

Definition Set_has (s : list jsstring) (x : jsstring) : bool := includes x s.

Definition Set_size (s : list jsstring) : nat := List.length s.

(** [s.split(',').map(opt => normalizeString(opt)).filter(Boolean)] *)
Definition options (s : jsstring) : list jsstring :=
  List.filter (fun o => negb (falsy o))
    (List.map normalizeString (split COMMA s)).

Definition checkMultipleChoiceMultiple (userAnswer correctAnswer : jsstring)
  : bool :=
  if falsy userAnswer || falsy correctAnswer then false
  else
    let userOptions := Set_of (options userAnswer) in
    let correctOptions := Set_of (options correctAnswer) in
    if negb (Nat.eqb (Set_size userOptions) (Set_size correctOptions))
    then false
    else forallb (Set_has correctOptions) userOptions
         && forallb (Set_has userOptions) correctOptions.

(** *** Dispatcher *)

Definition MULTIPLE_CHOICE_MULTIPLE : jsstring :=
  lit "MULTIPLE_CHOICE_MULTIPLE".

(** [questionType] is optional: [None] is an absent argument. *)
Definition checkAnswer (userAnswer correctAnswer : jsstring)
           (questionType : option jsstring) : bool :=
  match questionType with
  | Some t =>
      if t === MULTIPLE_CHOICE_MULTIPLE
      then checkMultipleChoiceMultiple userAnswer correctAnswer
      else checkIeltsAnswer userAnswer correctAnswer
  | None => checkIeltsAnswer userAnswer correctAnswer
  end.

(** *** Predicates used to state properties of the checker *)

(** A spelling that holds white space or a comma. *)
Definition spaced_or_grouped (w : jsstring) : bool :=
  existsb (fun c => is_ws c || (c =? COMMA)) w.

(** The currency pattern in words: an optional currency sign, white
    space or none, an amount, white space or none, a word in small
    letters or none, and nothing else. *)
Definition currency_shape (s sign amount word_ : jsstring) : Prop :=
  exists space1 space2,
    s = sign ++ space1 ++ amount ++ space2 ++ word_
    /\ (sign = [] \/ exists c, sign = [c] /\ currency_sign c = true)
    /\ forallb is_ws space1 = true
    /\ amount <> [] /\ forallb digit_comma_dot amount = true
    /\ forallb is_ws space2 = true
    /\ forallb (in_range 97 122) word_ = true.

(** A capital letter of Basic Latin. *)
Definition is_upper (c : N) : bool := in_range 65 90 c.

(** [spaced_from after_space s]: every white-space unit of [s] is a
    SPACE that follows a unit which is not white space, and [s] does
    not end on one; [after_space] tells whether a SPACE, or the start
    of the string, stands just before [s]. *)
Fixpoint spaced_from (after_space : bool) (s : jsstring) : bool :=
  match s with
  | [] => negb after_space
  | c :: s' =>
      if is_ws c
      then (c =? SPACE) && negb after_space && spaced_from true s'
      else spaced_from false s'
  end.

Definition well_spaced (s : jsstring) : bool :=
  match s with
  | [] => true
  | _ :: _ => spaced_from true s
  end.

(** No capital letter, no white space at either end, and single SPACE
    units as the only white space. *)
Definition normal_form (s : jsstring) : bool :=
  forallb (fun c => negb (is_upper c)) s && well_spaced s.

(** The second date pattern, day then month:
    /^(\d{1,2})(?:st|nd|rd|th)?\s+(?:of\s+)?(\w+)$/i *)
Definition dayMonthPattern : regex :=
  seq [Bol; Group 1 (Rep is_digit 1 (Some 2%nat)); ordinal_suffix;
       plus is_ws; Opt (Cat (word_i "of") (plus is_ws));
       Group 2 (plus is_word); Eol].

(** One or two digits. *)
Definition day_number (d : jsstring) : bool :=
  forallb is_digit d
  && (Nat.leb 1 (List.length d) && Nat.leb (List.length d) 2).

(** One or more word characters. *)
Definition one_word (w : jsstring) : bool :=
  forallb is_word w && negb (falsy w).

(** The first date pattern, month then day:
    /^(\w+)\s+(\d{1,2})(?:st|nd|rd|th)?$/i *)
Definition monthDayPattern : regex :=
  seq [Bol; Group 1 (plus is_word); plus is_ws;
       Group 2 (Rep is_digit 1 (Some 2%nat)); ordinal_suffix; Eol].

(** The three patterns of [normalizeAmPm] and the text [matchTime]
    hands to it. *)
Definition amPattern : regex :=
  seq [chr_i 97; Opt (chr 46); chr_i 109; Opt (chr 46)].

Definition pmPattern : regex :=
  seq [chr_i 112; Opt (chr 46); chr_i 109; Opt (chr 46)].

Definition oclockPattern : regex :=
  seq [chr_i 111; Opt (chr APOSTROPHE); word_i "clock"].

Definition timeDigits (answer : jsstring) : jsstring :=
  replace_all (Class dot_or_colon) (fun _ => [])
    (removeAllSpaces (normalizeString answer)).

(** A text without full stop and without capital letter. *)
Definition plain_text (s : jsstring) : Prop :=
  forall x, In x s -> (46 =? x) = false /\ is_upper x = false.

End Ielts.

(** ** Facts about the string built-ins *)

Module JsFacts.
Import Js.

Lemma str_eqb_refl (a : jsstring) : str_eqb a a = true.
Proof.
  induction a as [|x a IH]; simpl; [reflexivity|].
  now rewrite N.eqb_refl, IH.
Qed.

Lemma str_eqb_eq (a b : jsstring) : str_eqb a b = true <-> a = b.
Proof.
  split; [|intros ->; apply str_eqb_refl].
  revert b; induction a as [|x a IH]; intros [|y b]; simpl;
    try discriminate; [reflexivity|].
  intros H. apply andb_true_iff in H as [H1 H2].
  apply N.eqb_eq in H1. apply IH in H2. now subst.
Qed.

Lemma str_eqb_neq (a b : jsstring) : str_eqb a b = false <-> a <> b.
Proof.
  rewrite <- str_eqb_eq. destruct (str_eqb a b); split; congruence.
Qed.

Lemma falsy_nil (s : jsstring) : falsy s = true <-> s = [].
Proof. destruct s; simpl; split; congruence. Qed.

Lemma falsy_cons (s : jsstring) : s <> [] -> falsy s = false.
Proof. destruct s; simpl; congruence. Qed.

(** Settles every comparison of the goal whose outcome [lia] can
    decide from the context. *)
Ltac settle_cmp :=
  repeat match goal with
    | |- context [N.eqb ?a ?b] =>
        first [ replace (N.eqb a b) with false
                  by (symmetry; apply N.eqb_neq; lia)
              | replace (N.eqb a b) with true
                  by (symmetry; apply N.eqb_eq; lia) ]
    | |- context [N.leb ?a ?b] =>
        first [ replace (N.leb a b) with false
                  by (symmetry; apply N.leb_gt; lia)
              | replace (N.leb a b) with true
                  by (symmetry; apply N.leb_le; lia) ]
    end.

Lemma in_range_spec (lo hi c : N) :
  in_range lo hi c = true <-> lo <= c <= hi.
Proof.
  unfold in_range. rewrite andb_true_iff, !N.leb_le. tauto.
Qed.

Lemma letters_not_ws (c : N) : 65 <= c <= 122 -> is_ws c = false.
Proof.
  intros H. unfold is_ws, in_range. settle_cmp. reflexivity.
Qed.

(** Lowercasing neither makes nor removes white space. *)
Lemma is_ws_lower (c : N) : is_ws (lower_unit c) = is_ws c.
Proof.
  unfold lower_unit. destruct (in_range 65 90 c) eqn:E; [|reflexivity].
  apply in_range_spec in E.
  rewrite !letters_not_ws by lia. reflexivity.
Qed.

Lemma lower_unit_idem (c : N) : lower_unit (lower_unit c) = lower_unit c.
Proof.
  unfold lower_unit. destruct (in_range 65 90 c) eqn:E; [|now rewrite E].
  apply in_range_spec in E.
  unfold in_range. settle_cmp. reflexivity.
Qed.

Lemma toLowerCase_idem (s : jsstring) :
  toLowerCase (toLowerCase s) = toLowerCase s.
Proof.
  unfold toLowerCase. rewrite map_map.
  apply map_ext. intros c. apply lower_unit_idem.
Qed.

(** *** trim *)

Lemma trimStart_lower (s : jsstring) :
  trimStart (toLowerCase s) = toLowerCase (trimStart s).
Proof.
  induction s as [|c s IH]; simpl; [reflexivity|].
  rewrite is_ws_lower. destruct (is_ws c); [exact IH | reflexivity].
Qed.

Lemma trimEnd_lower (s : jsstring) :
  trimEnd (toLowerCase s) = toLowerCase (trimEnd s).
Proof.
  unfold trimEnd, toLowerCase.
  rewrite <- map_rev. fold (toLowerCase (rev s)).
  rewrite trimStart_lower. unfold toLowerCase. now rewrite map_rev.
Qed.

Lemma trim_lower (s : jsstring) :
  trim (toLowerCase s) = toLowerCase (trim s).
Proof. unfold trim. now rewrite trimStart_lower, trimEnd_lower. Qed.

Lemma trimStart_snoc (l : jsstring) (c : N) :
  trimStart (l ++ [c]) =
  match trimStart l with
  | [] => if is_ws c then [] else [c]
  | r => r ++ [c]
  end.
Proof.
  induction l as [|x l IH]; simpl; [reflexivity|].
  destruct (is_ws x); [exact IH | reflexivity].
Qed.

(** [trimEnd] read from the left. *)
Lemma trimEnd_cons (c : N) (s : jsstring) :
  trimEnd (c :: s) =
  match trimEnd s with
  | [] => if is_ws c then [] else [c]
  | r => c :: r
  end.
Proof.
  unfold trimEnd. simpl rev. rewrite trimStart_snoc.
  destruct (trimStart (rev s)) as [|y r] eqn:E; simpl.
  - destruct (is_ws c); reflexivity.
  - rewrite rev_app_distr. simpl.
    destruct (rev r ++ [y]) eqn:E'; [|reflexivity].
    now destruct (rev r).
Qed.

Lemma trimEnd_nil : trimEnd [] = [].
Proof. reflexivity. Qed.

Lemma trimStart_idem (s : jsstring) : trimStart (trimStart s) = trimStart s.
Proof.
  induction s as [|c s IH]; simpl; [reflexivity|].
  destruct (is_ws c) eqn:E; [exact IH | simpl; now rewrite E].
Qed.

Lemma trimEnd_idem (s : jsstring) : trimEnd (trimEnd s) = trimEnd s.
Proof.
  unfold trimEnd. rewrite rev_involutive, trimStart_idem. reflexivity.
Qed.

(** A string that starts with no white space still does after
    [trimEnd]. *)
Lemma trimStart_trimEnd (s : jsstring) :
  trimStart s = s -> trimStart (trimEnd s) = trimEnd s.
Proof.
  destruct s as [|c s]; [reflexivity|].
  simpl. destruct (is_ws c) eqn:E.
  - intros H. exfalso.
    assert (L : (List.length (trimStart s) <= List.length s)%nat).
    { clear. induction s as [|x s IH]; simpl; [lia|].
      destruct (is_ws x); simpl; lia. }
    rewrite H in L. simpl in L. lia.
  - intros _. rewrite trimEnd_cons.
    destruct (trimEnd s); rewrite ?E; simpl; now rewrite E.
Qed.

Lemma trim_idem (s : jsstring) : trim (trim s) = trim s.
Proof.
  unfold trim.
  rewrite (trimStart_trimEnd (trimStart s)) by apply trimStart_idem.
  apply trimEnd_idem.
Qed.

Lemma trimStart_all_ws (s : jsstring) :
  forallb is_ws s = true -> trimStart s = [].
Proof.
  induction s as [|c s IH]; simpl; [reflexivity|].
  intros H. apply andb_true_iff in H as [-> H]. now apply IH.
Qed.

Lemma trim_all_ws (s : jsstring) : forallb is_ws s = true -> trim s = [].
Proof. intros H. unfold trim. now rewrite trimStart_all_ws. Qed.

Lemma forallb_ws_lower (s : jsstring) :
  forallb is_ws (toLowerCase s) = forallb is_ws s.
Proof.
  induction s as [|c s IH]; simpl; [reflexivity|].
  now rewrite is_ws_lower, IH.
Qed.

(** *** split *)

Lemma split_not_nil (sep : N) (s : jsstring) : split sep s <> [].
Proof.
  induction s as [|c s IH]; simpl; [discriminate|].
  destruct (c =? sep); [discriminate|].
  destruct (split sep s); discriminate.
Qed.

(** A piece free of the separator, followed by the separator, is the
    first element of the split. *)
Lemma split_app (sep : N) (a rest : jsstring) :
  ~ In sep a -> split sep (a ++ sep :: rest) = a :: split sep rest.
Proof.
  induction a as [|c a IH]; simpl; intros H.
  - now rewrite N.eqb_refl.
  - destruct (N.eqb_spec c sep) as [->|_]; [tauto|].
    rewrite IH by tauto. reflexivity.
Qed.

Lemma split_free (sep : N) (a : jsstring) : ~ In sep a -> split sep a = [a].
Proof.
  induction a as [|c a IH]; simpl; intros H; [reflexivity|].
  destruct (N.eqb_spec c sep) as [->|_]; [tauto|].
  rewrite IH by tauto. reflexivity.
Qed.

(** *** the class replacements *)

Lemma replace_runs_empty (p : N -> bool) (b : bool) (s : jsstring) :
  replace_runs_from p [] b s = filter (fun c => negb (p c)) s.
Proof.
  revert b; induction s as [|c s IH]; intros b; simpl; [reflexivity|].
  destruct (p c); simpl; rewrite IH; now destruct b.
Qed.

Lemma filter_replace_runs (b : bool) (s : jsstring) :
  filter not_ws (replace_runs_from is_ws [32] b s) = filter not_ws s.
Proof.
  revert b; induction s as [|c s IH]; intros b; simpl; [reflexivity|].
  unfold not_ws at 2. destruct (is_ws c) eqn:E; simpl.
  - rewrite filter_app, IH. now destruct b.
  - unfold not_ws at 1. rewrite E. simpl. now rewrite IH.
Qed.

Lemma filter_trimStart (s : jsstring) :
  filter not_ws (trimStart s) = filter not_ws s.
Proof.
  induction s as [|c s IH]; simpl; [reflexivity|].
  unfold not_ws at 2. destruct (is_ws c) eqn:E; simpl; [exact IH|].
  unfold not_ws at 1. now rewrite E.
Qed.

Lemma filter_trim (s : jsstring) : filter not_ws (trim s) = filter not_ws s.
Proof.
  unfold trim, trimEnd.
  rewrite filter_rev, filter_trimStart, filter_rev, rev_involutive.
  apply filter_trimStart.
Qed.

Lemma filter_lower (s : jsstring) :
  filter not_ws (toLowerCase s) = toLowerCase (filter not_ws s).
Proof.
  unfold toLowerCase, not_ws.
  induction s as [|c s IH]; simpl; [reflexivity|].
  rewrite is_ws_lower.
  destruct (is_ws c); simpl; now rewrite IH.
Qed.

(** Replacing a unit by itself changes nothing. *)
Lemma replace_class_self (p : N -> bool) (q : N) (s : jsstring) :
  (forall c, p c = true -> c = q) -> replace_class p [q] s = s.
Proof.
  intros H. unfold replace_class.
  induction s as [|c s IH]; simpl; [reflexivity|].
  rewrite IH. destruct (p c) eqn:E; [|reflexivity].
  now rewrite (H c E).
Qed.

(** *** white-space runs *)

Lemma replace_runs_lower (b : bool) (s : jsstring) :
  toLowerCase (replace_runs_from is_ws [32] b s)
  = replace_runs_from is_ws [32] b (toLowerCase s).
Proof.
  unfold toLowerCase.
  revert b; induction s as [|c s IH]; intros b; simpl; [reflexivity|].
  rewrite is_ws_lower. destruct (is_ws c); simpl.
  - rewrite map_app, IH. now destruct b.
  - now rewrite IH.
Qed.

Lemma replace_runs_idem (b : bool) (s : jsstring) :
  replace_runs_from is_ws [32] b (replace_runs_from is_ws [32] b s)
  = replace_runs_from is_ws [32] b s.
Proof.
  revert b; induction s as [|c s IH]; intros b; simpl; [reflexivity|].
  destruct (is_ws c) eqn:E; simpl.
  - destruct b; simpl; now rewrite IH.
  - now rewrite E, IH.
Qed.

Lemma trimEnd_all_ws (s : jsstring) :
  forallb is_ws s = true -> trimEnd s = [].
Proof.
  intros H. unfold trimEnd. rewrite trimStart_all_ws; [reflexivity|].
  rewrite forallb_forall in *. intros x Hx. apply H, in_rev, Hx.
Qed.

Lemma filter_not_ws_nil (s : jsstring) :
  filter not_ws s = [] -> forallb is_ws s = true.
Proof.
  induction s as [|c s IH]; simpl; [reflexivity|].
  unfold not_ws at 1. destruct (is_ws c); simpl; [exact IH | discriminate].
Qed.

(** A trimmed, non-empty string keeps a unit through the collapse of
    its white-space runs. *)
Lemma replace_runs_not_nil (b : bool) (s : jsstring) :
  trimEnd s = s -> s <> [] -> replace_runs_from is_ws [32] b s <> [].
Proof.
  intros Ht Hs Hr.
  assert (F : filter not_ws s = [])
    by now rewrite <- (filter_replace_runs b s), Hr.
  apply filter_not_ws_nil, trimEnd_all_ws in F. congruence.
Qed.

Lemma trimEnd_replace_runs (b : bool) (s : jsstring) :
  trimEnd s = s ->
  trimEnd (replace_runs_from is_ws [32] b s)
  = replace_runs_from is_ws [32] b s.
Proof.
  revert b; induction s as [|c s IH]; intros b H; [reflexivity|].
  rewrite trimEnd_cons in H.
  destruct (trimEnd s) as [|y r] eqn:Et.
  - destruct (is_ws c) eqn:E; [discriminate H|].
    injection H as <-. simpl. rewrite E. rewrite trimEnd_cons. simpl.
    now rewrite E.
  - injection H as H. specialize (IH true H) as IHt.
    specialize (IH false H) as IHf.
    assert (Ns : s <> []) by (rewrite <- H; discriminate).
    assert (Hs : trimEnd s = s) by congruence.
    simpl. destruct (is_ws c) eqn:E.
    + destruct b; simpl; [exact IHt|].
      rewrite trimEnd_cons, IHt.
      pose proof (replace_runs_not_nil true s Hs Ns) as Nr.
      now destruct (replace_runs_from is_ws [32] true s).
    + rewrite trimEnd_cons, IHf.
      destruct (replace_runs_from is_ws [32] false s); now rewrite ?E.
Qed.

Lemma trimStart_replace_runs (s : jsstring) :
  trimStart s = s ->
  trimStart (replace_runs_from is_ws [32] false s)
  = replace_runs_from is_ws [32] false s.
Proof.
  destruct s as [|c s]; [reflexivity|]. simpl.
  destruct (is_ws c) eqn:E.
  - intros H. exfalso.
    assert (L : (List.length (trimStart s) <= List.length s)%nat).
    { clear. induction s as [|x s IH]; simpl; [lia|].
      destruct (is_ws x); simpl; lia. }
    rewrite H in L. simpl in L. lia.
  - intros _. simpl. now rewrite E.
Qed.

Lemma trimStart_trim (s : jsstring) : trimStart (trim s) = trim s.
Proof.
  unfold trim. apply trimStart_trimEnd, trimStart_idem.
Qed.

Lemma trimEnd_trim (s : jsstring) : trimEnd (trim s) = trim s.
Proof. unfold trim. apply trimEnd_idem. Qed.

(** Collapsing the runs of a trimmed string leaves it trimmed. *)
Lemma trim_replace_runs (s : jsstring) :
  trim (replace_runs is_ws [32] (trim s)) = replace_runs is_ws [32] (trim s).
Proof.
  unfold replace_runs. unfold trim at 1.
  rewrite trimStart_replace_runs by apply trimStart_trim.
  apply trimEnd_replace_runs, trimEnd_trim.
Qed.

End JsFacts.

(** ** The class replacements and the matcher agree

    [replace_class] and [replace_runs] are what the general replacement
    computes on the patterns [/[class]/g] and [/[class]+/g]. *)

Module ReFacts.
Import Js Re.

Lemma replace_all_class (p : N -> bool) (by_ : jsstring) (s : jsstring) :
  replace_all (Class p) (fun _ => by_) s = replace_class p by_ s.
Proof.
  unfold replace_all, replace_class.
  assert (G : forall pos,
             replace_all_from (Class p) (fun _ => by_) 0 pos s
             = flat_map (fun c => if p c then by_ else [c]) s).
  { induction s as [|c s IH]; intros pos; [reflexivity|].
    cbn [replace_all_from re_match flat_map accept].
    destruct (p c).
    - unfold accept. cbv beta iota.
      replace (S pos - pos)%nat with 1%nat by lia. now rewrite IH.
    - now rewrite IH. }
  apply G.
Qed.

(** With a continuation that accepts, the greedy quantifier takes the
    whole run. *)
Lemma rep_takes_run (p : N -> bool) (lo : nat) (pos : nat) (s : jsstring)
      (cs : captures) :
  (lo <= run_length p s)%nat ->
  exists rest,
    rep p lo None pos s (fun pos' s' => accept pos' s' cs)
    = Some ((pos + run_length p s)%nat, rest, cs).
Proof.
  revert lo pos; induction s as [|c s IH]; intros lo pos Hlo; simpl in *.
  - assert (lo = 0%nat) by lia. subst.
    exists []. unfold accept. now rewrite Nat.add_0_r.
  - destruct (p c); simpl.
    + destruct (IH (Nat.pred lo) (S pos)) as [rest Hr]; [lia|].
      exists rest. rewrite Hr. simpl. f_equal. f_equal. f_equal. lia.
    + assert (lo = 0%nat) by lia. subst.
      exists (c :: s). unfold accept. now rewrite Nat.add_0_r.
Qed.

Lemma plus_takes_run (p : N -> bool) (pos : nat) (s : jsstring) :
  (1 <= run_length p s)%nat ->
  exists rest,
    re_match (plus p) pos s [] accept
    = Some ((pos + run_length p s)%nat, rest, []).
Proof.
  intros H. destruct (rep_takes_run p 1 pos s [] H) as [rest Hr].
  exists rest. exact Hr.
Qed.

Lemma plus_fails_off_run (p : N -> bool) (pos : nat) (s : jsstring) :
  run_length p s = 0%nat -> re_match (plus p) pos s [] accept = None.
Proof.
  destruct s as [|c s]; simpl; [reflexivity|].
  destruct (p c); [discriminate | reflexivity].
Qed.

Lemma replace_all_plus_from (p : N -> bool) (by_ : jsstring)
      (s : jsstring) (pos : nat) :
  replace_all_from (plus p) (fun _ => by_) 0 pos s
  = replace_runs_from p by_ false s
  /\ replace_all_from (plus p) (fun _ => by_) (run_length p s) pos s
     = replace_runs_from p by_ true s.
Proof.
  revert pos; induction s as [|c s IH]; intros pos.
  - split; reflexivity.
  - destruct (IH (S pos)) as [IH0 IHn].
    assert (A : replace_all_from (plus p) (fun _ => by_) 0 pos (c :: s)
                = replace_runs_from p by_ false (c :: s)).
    { cbn [replace_all_from].
      destruct (p c) eqn:E.
      - destruct (plus_takes_run p pos (c :: s)) as [rest Hr];
          [simpl; rewrite E; lia|].
        rewrite Hr. cbn [run_length replace_runs_from]. rewrite E.
        replace (pos + S (run_length p s) - pos)%nat
          with (S (run_length p s)) by lia.
        now rewrite IHn.
      - rewrite plus_fails_off_run by (simpl; now rewrite E).
        cbn [replace_runs_from]. now rewrite E, IH0. }
    split; [exact A|].
    cbn [run_length]. destruct (p c) eqn:E.
    + cbn [replace_all_from replace_runs_from]. rewrite E. exact IHn.
    + rewrite A. cbn [replace_runs_from]. now rewrite E.
Qed.

Lemma replace_all_plus (p : N -> bool) (by_ : jsstring) (s : jsstring) :
  replace_all (plus p) (fun _ => by_) s = replace_runs p by_ s.
Proof. apply replace_all_plus_from. Qed.

(** *** What the greedy quantifier can return *)

Lemma run_length_prefix (p : N -> bool) (s : jsstring) (n : nat) :
  (n <= run_length p s)%nat -> forallb p (firstn n s) = true.
Proof.
  revert n; induction s as [|c s IH]; intros [|n] H; simpl in *;
    try reflexivity.
  destruct (p c); [|lia]. simpl. apply IH. lia.
Qed.

Lemma run_length_le (p : N -> bool) (s : jsstring) :
  (run_length p s <= List.length s)%nat.
Proof.
  induction s as [|c s IH]; simpl; [lia|]. destruct (p c); lia.
Qed.

Lemma run_length_app (p : N -> bool) (a b : jsstring) :
  forallb p a = true ->
  run_length p (a ++ b) = (List.length a + run_length p b)%nat.
Proof.
  induction a as [|c a IH]; simpl; [reflexivity|].
  intros H. apply andb_true_iff in H as [-> H]. now rewrite IH.
Qed.

(** Whatever the quantifier returns comes from the continuation, run
    after some number of units of the run, within the bounds. *)
Lemma rep_sound (p : N -> bool) (lo : nat) (hi : option nat) (pos : nat)
      (s : jsstring) (k : nat -> jsstring -> option outcome) (o : outcome) :
  rep p lo hi pos s k = Some o ->
  exists n, (lo <= n <= run_length p s)%nat
            /\ k (pos + n)%nat (skipn n s) = Some o.
Proof.
  revert lo hi pos; induction s as [|c s IH]; intros lo hi pos H.
  - simpl in H. destruct lo; [|discriminate H].
    exists 0%nat. simpl. rewrite Nat.add_0_r. split; [lia | exact H].
  - cbn [rep] in H.
    assert (Stop : match lo with
                   | 0%nat => k pos (c :: s)
                   | S _ => None
                   end = Some o ->
                   exists n, (lo <= n <= run_length p (c :: s))%nat
                             /\ k (pos + n)%nat (skipn n (c :: s)) = Some o).
    { intros Hs. destruct lo; [|discriminate Hs].
      exists 0%nat. simpl. rewrite Nat.add_0_r. split; [lia | exact Hs]. }
    destruct (p c) eqn:E; [|apply Stop; exact H].
    destruct (can_more hi); cbn [andb] in H; [|apply Stop; exact H].
    destruct (rep p (Nat.pred lo) (option_map Nat.pred hi) (S pos) s k)
      as [o'|] eqn:R; cbn [orelse] in H; [|apply Stop; exact H].
    injection H as ->.
    apply IH in R as (n & Hn & Hk). exists (S n). simpl. rewrite E.
    split; [lia|]. now rewrite Nat.add_succ_r.
Qed.

(** Without an upper bound, the quantifier returns what the
    continuation returns after the whole run, when it succeeds there. *)
Lemma rep_greedy (p : N -> bool) (lo : nat) (pos : nat) (s : jsstring)
      (k : nat -> jsstring -> option outcome) (o : outcome) :
  (lo <= run_length p s)%nat ->
  k (pos + run_length p s)%nat (skipn (run_length p s) s) = Some o ->
  rep p lo None pos s k = Some o.
Proof.
  revert lo pos; induction s as [|c s IH]; intros lo pos Hlo Hk.
  - simpl in *. assert (lo = 0%nat) by lia. subst.
    now rewrite Nat.add_0_r in Hk.
  - cbn [rep run_length option_map] in *.
    destruct (p c); cbn [andb can_more].
    + rewrite (IH (Nat.pred lo) (S pos)); [reflexivity | lia |].
      simpl in Hk. now rewrite Nat.add_succ_r in Hk.
    + assert (lo = 0%nat) by lia. subst. simpl in Hk.
      now rewrite Nat.add_0_r in Hk.
Qed.

(** A pattern anchored at the start matches at index 0 or nowhere. *)
Lemma exec_from_anchored (r : regex) (pos : nat) (s : jsstring) :
  exec_from (Cat Bol r) (S pos) s = None.
Proof.
  revert pos; induction s as [|c s IH]; intros pos; simpl; [reflexivity|].
  apply IH.
Qed.

Lemma exec_anchored (r : regex) (s : jsstring) :
  exec (Cat Bol r) s =
  match re_match r 0 s [] accept with
  | Some (_, _, cs) => Some cs
  | None => None
  end.
Proof.
  unfold exec. destruct s as [|c s]; cbn [exec_from re_match].
  - now destruct (re_match r 0 [] [] accept) as [[[? ?] ?]|].
  - destruct (re_match r 0 (c :: s) [] accept) as [[[? ?] ?]|];
      [reflexivity | apply exec_from_anchored].
Qed.

End ReFacts.

(** ** Properties of the checker *)

Module IeltsFacts.
Import Js Re Ielts JsFacts ReFacts.

(** *** The normalizer *)

(** The two quote replacements put back the unit they take out. *)
Lemma normalizeString_runs (s : jsstring) :
  normalizeString s = replace_runs is_ws [SPACE] (trim (toLowerCase s)).
Proof.
  unfold normalizeString.
  rewrite !replace_all_class, replace_all_plus.
  rewrite !replace_class_self; [reflexivity| |].
  - intros c H. apply orb_true_iff in H.
    destruct H as [H|H]; now apply N.eqb_eq in H.
  - intros c H. apply orb_true_iff in H.
    destruct H as [H|H]; now apply N.eqb_eq in H.
Qed.

Lemma normalizeString_trim (s : jsstring) :
  normalizeString (trim s) = normalizeString s.
Proof.
  rewrite !normalizeString_runs.
  now rewrite <- (trim_lower s), trim_idem.
Qed.

Lemma normalizeString_all_ws (s : jsstring) :
  forallb is_ws s = true -> normalizeString s = [].
Proof.
  intros H. rewrite normalizeString_runs.
  rewrite trim_all_ws; [reflexivity|].
  now rewrite forallb_ws_lower.
Qed.

(** Normalizing twice is normalizing once. *)
Lemma normalizeString_idem (s : jsstring) :
  normalizeString (normalizeString s) = normalizeString s.
Proof.
  rewrite !normalizeString_runs. change [SPACE] with [32].
  unfold replace_runs at 2. rewrite replace_runs_lower.
  fold (replace_runs is_ws [32] (toLowerCase (trim (toLowerCase s)))).
  rewrite <- (trim_lower (toLowerCase s)), toLowerCase_idem.
  rewrite trim_replace_runs. unfold replace_runs.
  apply replace_runs_idem.
Qed.

Lemma removeAllSpaces_filter (s : jsstring) :
  removeAllSpaces s = filter not_ws s.
Proof.
  unfold removeAllSpaces. rewrite replace_all_plus.
  unfold replace_runs. apply replace_runs_empty.
Qed.

(** The phone normalization does not see the string normalization. *)
Lemma normalizePhone_normalizeString (s : jsstring) :
  normalizePhone (normalizeString s) = normalizePhone s.
Proof.
  assert (E : removeAllSpaces (toLowerCase (normalizeString s))
              = removeAllSpaces (toLowerCase s)).
  { rewrite !removeAllSpaces_filter, normalizeString_runs.
    rewrite (filter_lower (replace_runs _ _ _)). unfold replace_runs.
    change [SPACE] with [32].
    rewrite filter_replace_runs, filter_trim.
    rewrite <- filter_lower. now rewrite toLowerCase_idem. }
  unfold normalizePhone. fold (removeAllSpaces (toLowerCase s)).
  fold (removeAllSpaces (toLowerCase (normalizeString s))). now rewrite E.
Qed.

(** *** The loops *)

Lemma checkIelts_loop_true (user : jsstring) (answers : list jsstring) :
  checkIelts_loop user answers = true <->
  exists correct, In correct answers /\ check_alternative user correct = true.
Proof.
  induction answers as [|a answers IH]; simpl.
  - split; [discriminate | intros (c & [] & _)].
  - destruct (check_alternative user a) eqn:E.
    + split; [intros _; exists a; auto | reflexivity].
    + rewrite IH. split.
      * intros (c & Hin & Hc). exists c; auto.
      * intros (c & [<-|Hin] & Hc); [congruence | exists c; auto].
Qed.

Lemma check_alternative_same (user : jsstring) :
  check_alternative user user = true.
Proof. unfold check_alternative. now rewrite str_eqb_refl. Qed.

Lemma check_alternative_phone (user correct : jsstring) :
  matchPhoneNumber user correct = true ->
  check_alternative user correct = true.
Proof.
  intros H. unfold check_alternative. rewrite H.
  repeat match goal with
         | |- (if ?b then true else _) = true => destruct b; [reflexivity|]
         end.
  reflexivity.
Qed.

Lemma acceptableAnswers_free (a : jsstring) :
  ~ In SLASH a -> acceptableAnswers a = [normalizeString a].
Proof.
  intros H. unfold acceptableAnswers.
  rewrite split_free by exact H. simpl. now rewrite normalizeString_trim.
Qed.

Lemma acceptableAnswers_three (a b c : jsstring) :
  ~ In SLASH a -> ~ In SLASH b -> ~ In SLASH c ->
  acceptableAnswers (a ++ lit "/" ++ b ++ lit "/" ++ c) =
  [normalizeString a; normalizeString b; normalizeString c].
Proof.
  intros Ha Hb Hc. unfold acceptableAnswers.
  change (lit "/") with [SLASH]. simpl app.
  rewrite (split_app SLASH a) by exact Ha.
  rewrite (split_app SLASH b) by exact Hb.
  rewrite split_free by exact Hc.
  simpl. now rewrite !normalizeString_trim.
Qed.

(** With one acceptable answer the checker is the guard followed by
    one pass of the loop body. *)
Lemma checkIeltsAnswer_single (x a : jsstring) :
  ~ In SLASH a ->
  checkIeltsAnswer x a =
  if falsy x || falsy a then false
  else check_alternative (normalizeString x) (normalizeString a).
Proof.
  intros H. unfold checkIeltsAnswer.
  destruct (falsy x || falsy a); [reflexivity|].
  rewrite acceptableAnswers_free by exact H. simpl.
  now destruct (check_alternative _ _).
Qed.

(** *** Claims *)

(** Proves that a literal holds no ['/']. *)
Ltac no_slash :=
  let H := fresh "H" in
  simpl; intros H; repeat destruct H as [H|H]; try discriminate H; exact H.

(** C1 (amended): for every non-empty string [s] that holds no ['/'],
    [checkAnswer(s, s)], called without a question type, is true. *)
Theorem checkAnswer_same_string (s : jsstring) :
  s <> [] -> ~ In SLASH s -> checkAnswer s s None = true.
Proof.
  intros Hne Hfree. simpl.
  rewrite checkIeltsAnswer_single by exact Hfree.
  rewrite (falsy_cons s Hne). simpl.
  apply check_alternative_same.
Qed.

Lemma same_string_hotel :
  lit "hotel" <> [] /\ ~ In SLASH (lit "hotel")
  /\ checkAnswer (lit "hotel") (lit "hotel") None = true.
Proof.
  assert (H1 : lit "hotel" <> []) by discriminate.
  assert (H2 : ~ In SLASH (lit "hotel")) by no_slash.
  split; [exact H1|]. split; [exact H2|].
  exact (checkAnswer_same_string (lit "hotel") H1 H2).
Defined.

(** C1 as stated fails: the empty string is rejected by the guard, and
    a string holding ['/'] is compared with its pieces only. *)
Lemma same_string_rejected :
  checkAnswer [] [] None = false
  /\ checkAnswer (lit "a/b") (lit "a/b") None = false.
Proof. split; vm_compute; reflexivity. Qed.

(** C5: whatever the other string and the question type, an empty user
    answer and an empty correct answer are both rejected; the checker
    is a total function, it returns [false] there. *)
Theorem empty_input_rejected (t : jsstring) (questionType : option jsstring) :
  checkAnswer [] t questionType = false
  /\ checkAnswer t [] questionType = false.
Proof.
  assert (I1 : checkIeltsAnswer [] t = false) by reflexivity.
  assert (I2 : checkIeltsAnswer t [] = false).
  { unfold checkIeltsAnswer. now rewrite orb_true_r. }
  assert (M1 : checkMultipleChoiceMultiple [] t = false) by reflexivity.
  assert (M2 : checkMultipleChoiceMultiple t [] = false).
  { unfold checkMultipleChoiceMultiple. now rewrite orb_true_r. }
  unfold checkAnswer. destruct questionType as [q|]; [|now split].
  destruct (str_eqb q MULTIPLE_CHOICE_MULTIPLE); now split.
Qed.

(** C4 (amended): for every user answer [x] and all non-empty strings
    [a], [b], [c] holding no ['/'], [checkAnswer(x, "a/b/c")] is true
    exactly when [checkAnswer(x, a)], [checkAnswer(x, b)] or
    [checkAnswer(x, c)] is. *)
Theorem alternatives_independent (x a b c : jsstring) :
  a <> [] -> b <> [] -> c <> [] ->
  ~ In SLASH a -> ~ In SLASH b -> ~ In SLASH c ->
  checkAnswer x (a ++ lit "/" ++ b ++ lit "/" ++ c) None = true <->
  checkAnswer x a None = true \/ checkAnswer x b None = true
  \/ checkAnswer x c None = true.
Proof.
  intros Na Nb Nc Ha Hb Hc. unfold checkAnswer.
  rewrite (checkIeltsAnswer_single x a Ha), (checkIeltsAnswer_single x b Hb),
    (checkIeltsAnswer_single x c Hc).
  rewrite (falsy_cons a Na), (falsy_cons b Nb), (falsy_cons c Nc).
  unfold checkIeltsAnswer.
  assert (F : falsy (a ++ lit "/" ++ b ++ lit "/" ++ c) = false)
    by (destruct a; [congruence | reflexivity]).
  rewrite F, !orb_false_r.
  destruct (falsy x); [intuition discriminate|].
  rewrite acceptableAnswers_three by assumption. simpl.
  destruct (check_alternative (normalizeString x) (normalizeString a));
    destruct (check_alternative (normalizeString x) (normalizeString b));
    destruct (check_alternative (normalizeString x) (normalizeString c));
    intuition discriminate.
Qed.

Lemma three_alternatives_twelve :
  (lit "ten" <> [] /\ lit "twelve" <> [] /\ lit "two" <> [])
  /\ (~ In SLASH (lit "ten") /\ ~ In SLASH (lit "twelve")
      /\ ~ In SLASH (lit "two"))
  /\ (checkAnswer (lit "12")
        (lit "ten" ++ lit "/" ++ lit "twelve" ++ lit "/" ++ lit "two") None
      = true <->
      checkAnswer (lit "12") (lit "ten") None = true
      \/ checkAnswer (lit "12") (lit "twelve") None = true
      \/ checkAnswer (lit "12") (lit "two") None = true).
Proof.
  assert (N1 : lit "ten" <> []) by discriminate.
  assert (N2 : lit "twelve" <> []) by discriminate.
  assert (N3 : lit "two" <> []) by discriminate.
  assert (F1 : ~ In SLASH (lit "ten")) by no_slash.
  assert (F2 : ~ In SLASH (lit "twelve")) by no_slash.
  assert (F3 : ~ In SLASH (lit "two")) by no_slash.
  split; [auto|]. split; [auto|].
  exact (alternatives_independent (lit "12") (lit "ten") (lit "twelve")
           (lit "two") N1 N2 N3 F1 F2 F3).
Defined.

(** C4 as stated fails on an empty alternative: alone it is rejected by
    the guard, inside a list it is compared with the user answer, and
    the plural rule takes ["s"] for the empty string followed by s. *)
Lemma empty_alternative_accepted :
  checkAnswer (lit "s") ([] ++ lit "/" ++ lit "q" ++ lit "/" ++ lit "q") None
  = true
  /\ checkAnswer (lit "s") [] None = false
  /\ checkAnswer (lit "s") (lit "q") None = false.
Proof. repeat split; vm_compute; reflexivity. Qed.

Lemma ws_free_of_slash (s : jsstring) :
  forallb is_ws s = true -> ~ In SLASH s.
Proof.
  intros H Hin. rewrite forallb_forall in H.
  apply H in Hin. discriminate Hin.
Qed.

(** C9: two non-empty strings made of white space only are accepted by
    [checkIeltsAnswer]: the guard lets them through, both normalize to
    the empty string, and the exact comparison succeeds. *)
Theorem whitespace_only_accepted (userAnswer correctAnswers : jsstring) :
  userAnswer <> [] -> correctAnswers <> [] ->
  forallb is_ws userAnswer = true -> forallb is_ws correctAnswers = true ->
  normalizeString userAnswer = []
  /\ acceptableAnswers correctAnswers = [[]]
  /\ checkIeltsAnswer userAnswer correctAnswers = true.
Proof.
  intros Nu Nc Wu Wc.
  pose proof (ws_free_of_slash correctAnswers Wc) as Hfree.
  split; [now apply normalizeString_all_ws|].
  split.
  - rewrite acceptableAnswers_free by exact Hfree.
    now rewrite normalizeString_all_ws.
  - rewrite checkIeltsAnswer_single by exact Hfree.
    rewrite (falsy_cons _ Nu), (falsy_cons _ Nc). simpl.
    rewrite !normalizeString_all_ws by assumption.
    apply check_alternative_same.
Qed.

Lemma single_spaces_accepted :
  (lit " " <> [] /\ forallb is_ws (lit " ") = true)
  /\ normalizeString (lit " ") = []
  /\ acceptableAnswers (lit " ") = [[]]
  /\ checkIeltsAnswer (lit " ") (lit " ") = true.
Proof.
  assert (N1 : lit " " <> []) by discriminate.
  assert (W1 : forallb is_ws (lit " ") = true) by reflexivity.
  split; [auto|].
  exact (whitespace_only_accepted (lit " ") (lit " ") N1 N1 W1 W1).
Defined.

(** The phone rule inside the loop: a piece of the correct answer that
    the phone normalization makes identical to the user answer. *)
Lemma checkIelts_phone_piece (userAnswer correctAnswers piece : jsstring) :
  userAnswer <> [] -> correctAnswers <> [] ->
  In piece (split SLASH correctAnswers) ->
  normalizePhone userAnswer = normalizePhone piece ->
  checkIeltsAnswer userAnswer correctAnswers = true.
Proof.
  intros Nu Nc Hin Heq. unfold checkIeltsAnswer.
  rewrite (falsy_cons _ Nu), (falsy_cons _ Nc). simpl.
  apply checkIelts_loop_true.
  exists (normalizeString (trim piece)). split.
  - unfold acceptableAnswers.
    apply (in_map (fun a => normalizeString (trim a))), Hin.
  - apply check_alternative_phone. unfold matchPhoneNumber.
    rewrite normalizeString_trim, !normalizePhone_normalizeString, Heq.
    apply str_eqb_refl.
Qed.




(** *** Date *)

Lemma matchDate_loop_true (patterns : list regex) (user correct : jsstring) :
  matchDate_loop patterns user correct = true <->
  exists pattern, In pattern patterns
                  /\ test pattern user = true /\ test pattern correct = true.
Proof.
  induction patterns as [|p patterns IH]; simpl.
  - split; [discriminate | intros (q & [] & _)].
  - destruct (test p user && test p correct) eqn:E.
    + apply andb_true_iff in E.
      split; [intros _; exists p; tauto | reflexivity].
    + rewrite IH. split.
      * intros (q & Hin & H). exists q; tauto.
      * intros (q & [<-|Hin] & H1 & H2).
        -- rewrite H1, H2 in E. discriminate E.
        -- exists q; tauto.
Qed.

(** C6: [matchDate] normalizes its operands and then only asks whether
    one of the four patterns matches both: if one does it returns true
    without looking at the captured components, if none does it returns
    false; so "march 5" is taken for "april 9". *)
Theorem matchDate_same_pattern (userAnswer correctAnswer : jsstring) :
  ((exists pattern, In pattern datePatterns
                    /\ test pattern (normalizeString userAnswer) = true
                    /\ test pattern (normalizeString correctAnswer) = true)
   -> matchDate userAnswer correctAnswer = true)
  /\ ((forall pattern, In pattern datePatterns ->
                       test pattern (normalizeString userAnswer) = true ->
                       test pattern (normalizeString correctAnswer) = true ->
                       False)
      -> matchDate userAnswer correctAnswer = false)
  /\ matchDate (lit "march 5") (lit "april 9") = true.
Proof.
  unfold matchDate. split; [|split].
  - intros H. now apply matchDate_loop_true.
  - intros H.
    destruct (matchDate_loop datePatterns _ _) eqn:E; [|reflexivity].
    apply matchDate_loop_true in E as (p & Hin & H1 & H2).
    destruct (H p Hin H1 H2).
  - vm_compute. reflexivity.
Qed.

Lemma day_month_pair_accepted :
  matchDate (lit "3 may") (lit "21st of june") = true.
Proof.
  apply (proj1 (matchDate_same_pattern (lit "3 may") (lit "21st of june"))).
  exists (nth 1 datePatterns Eps).
  split; [right; left; reflexivity|].
  split; vm_compute; reflexivity.
Defined.

(** Inside the equivalence engine [matchDate] receives strings that
    are already normalized; normalizing them again changes nothing. *)
Lemma matchDate_normalized (userAnswer correctAnswer : jsstring) :
  matchDate (normalizeString userAnswer) (normalizeString correctAnswer)
  = matchDate_loop datePatterns
      (normalizeString userAnswer) (normalizeString correctAnswer).
Proof. unfold matchDate. now rewrite !normalizeString_idem. Qed.

(** *** Multiple selection *)

Lemma includes_In (x : jsstring) (arr : list jsstring) :
  includes x arr = true <-> In x arr.
Proof.
  unfold includes. rewrite existsb_exists. split.
  - intros (w & Hin & H). apply str_eqb_eq in H. now subst.
  - intros H. exists x. split; [exact H | apply str_eqb_refl].
Qed.

Lemma Set_add_In (x y : jsstring) (s : list jsstring) :
  In y (Set_add x s) <-> y = x \/ In y s.
Proof.
  induction s as [|z s IH]; simpl.
  - intuition.
  - destruct (str_eqb z x) eqn:E; simpl.
    + apply str_eqb_eq in E. subst. intuition.
    + rewrite IH. intuition.
Qed.

Lemma Set_add_NoDup (x : jsstring) (s : list jsstring) :
  NoDup s -> NoDup (Set_add x s).
Proof.
  induction s as [|z s IH]; simpl; intros H.
  - constructor; [intros [] | constructor].
  - destruct (str_eqb z x) eqn:E; [exact H|].
    inversion H as [|? ? Hz Hs]; subst.
    constructor; [|now apply IH].
    rewrite Set_add_In. intros [->|Hin]; [|contradiction].
    now rewrite str_eqb_refl in E.
Qed.

Lemma fold_Set_add (arr acc : list jsstring) :
  (forall y, In y (fold_left (fun s x => Set_add x s) arr acc)
             <-> In y acc \/ In y arr)
  /\ (NoDup acc -> NoDup (fold_left (fun s x => Set_add x s) arr acc)).
Proof.
  revert acc; induction arr as [|x arr IH]; intros acc; simpl.
  - split; [intuition | auto].
  - destruct (IH (Set_add x acc)) as [I1 I2]. split.
    + intros y. rewrite I1, Set_add_In. intuition.
    + intros H. now apply I2, Set_add_NoDup.
Qed.

(** The set built from an array holds the values of the array, each
    once. *)
Lemma Set_of_In (arr : list jsstring) (y : jsstring) :
  In y (Set_of arr) <-> In y arr.
Proof.
  unfold Set_of. destruct (fold_Set_add arr []) as [H _].
  rewrite H. simpl. intuition.
Qed.

Lemma Set_of_NoDup (arr : list jsstring) : NoDup (Set_of arr).
Proof.
  unfold Set_of. destruct (fold_Set_add arr []) as [_ H].
  apply H. constructor.
Qed.

Lemma forallb_Set_has (s t : list jsstring) :
  forallb (Set_has t) s = true <-> incl s t.
Proof.
  rewrite forallb_forall. unfold incl, Set_has.
  split; intros H x Hx; apply includes_In; auto.
Qed.

(** Two sets included in each other have the same size. *)
Lemma Set_size_incl (a b : list jsstring) :
  incl (Set_of a) (Set_of b) -> incl (Set_of b) (Set_of a) ->
  Set_size (Set_of a) = Set_size (Set_of b).
Proof.
  intros H1 H2. unfold Set_size. apply Nat.le_antisymm.
  - apply NoDup_incl_length; [apply Set_of_NoDup | exact H1].
  - apply NoDup_incl_length; [apply Set_of_NoDup | exact H2].
Qed.

(** C7 (amended): [checkMultipleChoiceMultiple] accepts exactly when
    both inputs are non-empty strings and the two sets of normalized,
    non-empty, comma-separated tokens have the same size and are
    included in each other, that is, when the two token lists have the
    same members whatever their order and repetitions; it accepts
    "B,A" for "A,B" and "A,A,B" for "A,B" and rejects "A,B,C" for
    "A,B". *)
Theorem multi_select_is_set_equality :
  (forall userAnswer correctAnswer,
      checkMultipleChoiceMultiple userAnswer correctAnswer = true <->
      userAnswer <> [] /\ correctAnswer <> []
      /\ Set_size (Set_of (options userAnswer))
         = Set_size (Set_of (options correctAnswer))
      /\ incl (Set_of (options userAnswer)) (Set_of (options correctAnswer))
      /\ incl (Set_of (options correctAnswer)) (Set_of (options userAnswer)))
  /\ (forall userAnswer correctAnswer,
         checkMultipleChoiceMultiple userAnswer correctAnswer = true <->
         userAnswer <> [] /\ correctAnswer <> []
         /\ forall o, In o (options userAnswer) <-> In o (options correctAnswer))
  /\ checkMultipleChoiceMultiple (lit "B,A") (lit "A,B") = true
  /\ checkMultipleChoiceMultiple (lit "A,A,B") (lit "A,B") = true
  /\ checkMultipleChoiceMultiple (lit "A,B,C") (lit "A,B") = false.
Proof.
  assert (M : forall u c,
             checkMultipleChoiceMultiple u c = true <->
             u <> [] /\ c <> []
             /\ Set_size (Set_of (options u)) = Set_size (Set_of (options c))
             /\ incl (Set_of (options u)) (Set_of (options c))
             /\ incl (Set_of (options c)) (Set_of (options u))).
  { intros u c. unfold checkMultipleChoiceMultiple.
    destruct u as [|x u]; [simpl; intuition congruence|].
    destruct c as [|y c]; [simpl; intuition congruence|].
    cbn [falsy orb].
    destruct (Nat.eqb_spec (Set_size (Set_of (options (x :: u))))
                           (Set_size (Set_of (options (y :: c)))))
      as [E|E]; cbn [negb].
    - rewrite andb_true_iff, !forallb_Set_has.
      intuition discriminate.
    - intuition discriminate. }
  split; [exact M|]. split.
  - intros u c. rewrite M. split.
    + intros (Nu & Nc & _ & I1 & I2). repeat split; try assumption.
      * intros H. apply Set_of_In, I1, Set_of_In, H.
      * intros H. apply Set_of_In, I2, Set_of_In, H.
    + intros (Nu & Nc & H).
      assert (I1 : incl (Set_of (options u)) (Set_of (options c))).
      { intros o Ho. apply Set_of_In, H, Set_of_In, Ho. }
      assert (I2 : incl (Set_of (options c)) (Set_of (options u))).
      { intros o Ho. apply Set_of_In, H, Set_of_In, Ho. }
      repeat split; try assumption. now apply Set_size_incl.
  - repeat split; vm_compute; reflexivity.
Qed.

(** C7 as stated fails on empty inputs: the two sets are then both
    empty, of the same size and included in each other, and the guard
    rejects the answer. *)
Lemma multi_select_empty_rejected :
  checkMultipleChoiceMultiple [] [] = false
  /\ Set_of (options []) = []
  /\ Set_size (Set_of (options [])) = Set_size (Set_of (options []))
  /\ incl (Set_of (options [])) (Set_of (options [])).
Proof.
  repeat split; try reflexivity. apply incl_refl.
Qed.

(** *** Phone number *)

(** A pattern that starts with two literals cannot match a text that
    lacks the second one. *)
Lemma second_literal_blocks (c1 c2 : N) (w t : regex) (pos : nat)
      (s : jsstring) (cs : captures)
      (k : nat -> jsstring -> captures -> option outcome) :
  (forall x, In x s -> (upper_unit x =? upper_unit c2) = false) ->
  re_match (Cat (Cat (chr_i c1) (Cat (chr_i c2) w)) t) pos s cs k = None.
Proof.
  intros H. destruct s as [|a [|b s]]; cbn [re_match chr_i].
  - reflexivity.
  - now destruct (upper_unit a =? upper_unit c1).
  - destruct (upper_unit a =? upper_unit c1); [|reflexivity].
    rewrite (H b) by (right; left; reflexivity). reflexivity.
Qed.

Lemma replace_all_no_match (r : regex) (by_ : captures -> jsstring)
      (s : jsstring) :
  (forall pos t, incl t s -> re_match r pos t [] accept = None) ->
  replace_all r by_ s = s.
Proof.
  intros H. unfold replace_all.
  assert (G : forall t pos, incl t s -> replace_all_from r by_ 0 pos t = t).
  { induction t as [|c t IH]; intros pos Ht; simpl.
    - now rewrite H.
    - rewrite (H pos (c :: t) Ht), IH; [reflexivity|].
      intros x Hx. apply Ht. now right. }
  apply G, incl_refl.
Qed.

Lemma letter_o_upper (x : N) :
  letter_o x = false -> (upper_unit x =? upper_unit 111) = false.
Proof.
  unfold letter_o. intros H. apply orb_false_iff in H as [H1 H2].
  apply N.eqb_neq in H1, H2. apply N.eqb_neq.
  change (upper_unit 111) with 79. unfold upper_unit.
  destruct (in_range 97 122 x) eqn:E; [|exact H2].
  apply in_range_spec in E. lia.
Qed.

Lemma letter_o_replaced (s : jsstring) (x : N) :
  In x (replace_all (Class letter_o) (fun _ => lit "0") s) ->
  letter_o x = false.
Proof.
  rewrite replace_all_class.
  unfold replace_class. rewrite in_flat_map. intros (c & _ & Hx).
  destruct (letter_o c) eqn:E.
  - destruct Hx as [<-|[]]. reflexivity.
  - destruct Hx as [<-|[]]. exact E.
Qed.

(** Once every o is a 0 no text spells "double": the second replacement
    of [normalizePhone] never fires. *)
Lemma double_never_replaced (s : jsstring) :
  normalizePhone s =
  replace_all triplePattern
    (fun m => dollar 1 m ++ dollar 1 m ++ dollar 1 m)
    (replace_all (Class letter_o) (fun _ => lit "0")
       (replace_all (plus is_ws) (fun _ => []) (toLowerCase s))).
Proof.
  unfold normalizePhone. f_equal.
  apply replace_all_no_match. intros pos t Ht.
  change doublePattern with
    (Cat (Cat (chr_i 100) (Cat (chr_i 111) (word_i "uble")))
         (seq [star is_ws; Group 1 (Class is_digit)])).
  apply second_literal_blocks.
  intros x Hx. apply letter_o_upper.
  apply (letter_o_replaced
           (replace_all (plus is_ws) (fun _ => []) (toLowerCase s))).
  apply Ht, Hx.
Qed.

(** C2 (the code departs from the claim): "o123" is accepted for
    "0123", but "double 5 5" is rejected for "5 5 5": its phone
    normalization is "d0uble55", the o of "double" having become a 0
    before the double pattern is tried. *)
Theorem double_notation_rejected :
  checkAnswer (lit "double 5 5") (lit "5 5 5") None = false
  /\ normalizePhone (lit "double 5 5") = lit "d0uble55"
  /\ normalizePhone (lit "5 5 5") = lit "555"
  /\ normalizePhone (lit "triple 5") = lit "555"
  /\ checkAnswer (lit "o123") (lit "0123") None = true.
Proof. repeat split; vm_compute; reflexivity. Qed.

(** *** Number *)

Lemma matchNumber_loop_true (sets : list (list jsstring))
      (user correct : jsstring) :
  matchNumber_loop sets user correct = true <->
  exists words, In words sets /\ In user words /\ In correct words.
Proof.
  induction sets as [|w sets IH]; simpl.
  - split; [discriminate | intros (q & [] & _)].
  - destruct (includes user w && includes correct w) eqn:E.
    + apply andb_true_iff in E as [E1 E2]. apply includes_In in E1, E2.
      split; [intros _; exists w; tauto | reflexivity].
    + rewrite IH. split.
      * intros (q & Hin & H). exists q; tauto.
      * intros (q & [<-|Hin] & H1 & H2); [|exists q; tauto].
        apply includes_In in H1, H2. rewrite H1, H2 in E. discriminate E.
Qed.

(** [matchNumber] compares the operands without commas and white space
    and otherwise looks for one set of the table holding both. *)
Lemma matchNumber_true (userAnswer correctAnswer : jsstring) :
  matchNumber userAnswer correctAnswer = true <->
  normalizeNum userAnswer = normalizeNum correctAnswer
  \/ exists words, In words (values NUMBER_WORDS)
                   /\ In (normalizeNum userAnswer) words
                   /\ In (normalizeNum correctAnswer) words.
Proof.
  unfold matchNumber.
  destruct (str_eqb (normalizeNum userAnswer) (normalizeNum correctAnswer))
    eqn:E.
  - apply str_eqb_eq in E. tauto.
  - apply str_eqb_neq in E. rewrite matchNumber_loop_true. tauto.
Qed.

Lemma In_trimStart (x : N) (s : jsstring) : In x (trimStart s) -> In x s.
Proof.
  induction s as [|c s IH]; simpl; [tauto|].
  destruct (is_ws c); simpl; tauto.
Qed.

Lemma In_trim (x : N) (s : jsstring) : In x (trim s) -> In x s.
Proof.
  unfold trim, trimEnd. intros H.
  apply In_trimStart. apply in_rev. apply In_trimStart. apply in_rev.
  exact H.
Qed.

(** What [normalizeNum] returns holds no white space. *)
Lemma normalizeNum_no_ws (s : jsstring) (x : N) :
  In x (normalizeNum s) -> is_ws x = false.
Proof.
  unfold normalizeNum. intros H. apply In_trim in H.
  fold (removeAllSpaces (remove_commas (toLowerCase s))) in H.
  rewrite removeAllSpaces_filter in H. apply filter_In in H as [_ H].
  unfold not_ws in H. now apply negb_true_iff in H.
Qed.

(** Hence a spelling of the table written with a space, such as
    [one hundred], is equal to no normalized operand. *)
Lemma spaced_words_unreachable (s w : jsstring) :
  existsb is_ws w = true -> normalizeNum s <> w.
Proof.
  intros H E. apply existsb_exists in H as (x & Hin & Hx).
  rewrite <- E in Hin. apply normalizeNum_no_ws in Hin. congruence.
Qed.

(** C3 (the code departs from the claim): "12" is accepted for
    "twelve" and "13" rejected for "thirty", but "100" is rejected for
    "one hundred": the number matcher looks up "onehundred", its
    operand without white space, and the table spells the entry with a
    space. *)
Theorem one_hundred_rejected :
  checkAnswer (lit "100") (lit "one hundred") None = false
  /\ normalizeNum (lit "one hundred") = lit "onehundred"
  /\ matchNumber (lit "100") (lit "one hundred") = false
  /\ checkAnswer (lit "12") (lit "twelve") None = true
  /\ checkAnswer (lit "13") (lit "thirty") None = false.
Proof. repeat split; vm_compute; reflexivity. Qed.

(** *** Measurement *)

Lemma matchMeasurement_loop_true (sets : list (list jsstring))
      (userUnit correctUnit : jsstring) (numsMatch : bool) :
  matchMeasurement_loop sets userUnit correctUnit numsMatch = true <->
  numsMatch = true
  /\ exists variations, In variations sets
                        /\ In (toLowerCase userUnit) variations
                        /\ In (toLowerCase correctUnit) variations.
Proof.
  induction sets as [|w sets IH]; simpl.
  - split; [discriminate | intros (_ & q & [] & _)].
  - destruct (includes (toLowerCase userUnit) w
              && includes (toLowerCase correctUnit) w) eqn:E.
    + apply andb_true_iff in E as [E1 E2]. apply includes_In in E1, E2.
      split; [intros ->; split; [reflexivity | exists w; tauto] | tauto].
    + rewrite IH. split.
      * intros (Hn & q & Hin & H). split; [exact Hn | exists q; tauto].
      * intros (Hn & q & [<-|Hin] & H1 & H2);
          [|split; [exact Hn | exists q; tauto]].
        apply includes_In in H1, H2. rewrite H1, H2 in E. discriminate E.
Qed.

(** [matchMeasurement] is true exactly when both normalized operands
    match the pattern, the numbers without commas are equal and one
    family of the table holds both units. *)
Lemma matchMeasurement_true (userAnswer correctAnswer : jsstring) :
  matchMeasurement userAnswer correctAnswer = true <->
  exists userMatch correctMatch,
    exec measurePattern (normalizeString userAnswer) = Some userMatch
    /\ exec measurePattern (normalizeString correctAnswer) = Some correctMatch
    /\ remove_commas (dollar 1 userMatch)
       = remove_commas (dollar 1 correctMatch)
    /\ exists variations,
        In variations (values MEASUREMENT_VARIATIONS)
        /\ In (toLowerCase (dollar 2 userMatch)) variations
        /\ In (toLowerCase (dollar 2 correctMatch)) variations.
Proof.
  unfold matchMeasurement.
  destruct (exec measurePattern (normalizeString userAnswer)) as [um|].
  - destruct (exec measurePattern (normalizeString correctAnswer)) as [cm|].
    + rewrite matchMeasurement_loop_true, str_eqb_eq. split.
      * intros (Hn & Hv). exists um, cm. tauto.
      * intros (um' & cm' & Hu & Hc & Hn & Hv).
        injection Hu as <-. injection Hc as <-. tauto.
    + split; [discriminate | intros (? & ? & _ & H & _); discriminate H].
  - split; [discriminate | intros (? & ? & H & _); discriminate H].
Qed.

(** *** The measurement pattern as a shape *)

Lemma firstn_not_nil (s : jsstring) (n : nat) :
  (1 <= n <= List.length s)%nat -> firstn n s <> [].
Proof.
  intros H E. apply (f_equal (@List.length N)) in E.
  rewrite length_firstn in E. simpl in E. lia.
Qed.

(** A match of the measurement pattern cuts the string into a number,
    white space and a unit word, and captures the number and the
    unit. *)
Lemma measurePattern_sound (s : jsstring) (m : captures) :
  exec measurePattern s = Some m ->
  measure_shape s (dollar 1 m) (dollar 2 m).
Proof.
  unfold measurePattern. cbn [seq]. rewrite exec_anchored.
  destruct (re_match _ 0 s [] accept) as [[[e rest] cs]|] eqn:H;
    [|discriminate].
  intros Hm. injection Hm as ->.
  cbn [re_match plus star] in H.
  apply rep_sound in H as (n1 & Hn1 & H).
  apply rep_sound in H as (n2 & Hn2 & H).
  apply rep_sound in H as (n3 & Hn3 & H).
  set (s1 := skipn n1 s) in *. set (s2 := skipn n2 s1) in *.
  destruct (skipn n3 s2) eqn:Hend; [|discriminate H].
  unfold accept in H. injection H as _ _ <-.
  cbn [dollar capture Nat.eqb].
  pose proof (run_length_le digit_comma_dot s) as L1.
  pose proof (run_length_le is_word s2) as L3.
  assert (F3 : firstn n3 s2 = s2).
  { rewrite <- (firstn_skipn n3 s2) at 2. rewrite Hend. now rewrite app_nil_r. }
  replace (n1 - 0)%nat with n1 by lia.
  replace (n1 + n2 + n3 - (n1 + n2))%nat with n3 by lia.
  rewrite F3. exists (firstn n2 s1). repeat split.
  - unfold s2, s1. now rewrite !firstn_skipn.
  - apply firstn_not_nil. lia.
  - apply run_length_prefix. lia.
  - apply run_length_prefix. lia.
  - rewrite <- F3. apply firstn_not_nil. lia.
  - rewrite <- F3. apply run_length_prefix. lia.
Qed.

Lemma digit_comma_dot_spec (c : N) :
  digit_comma_dot c = true <-> 48 <= c <= 57 \/ c = 44 \/ c = 46.
Proof.
  unfold digit_comma_dot, is_digit.
  rewrite !orb_true_iff, in_range_spec, !N.eqb_eq. tauto.
Qed.

Lemma is_word_spec (c : N) :
  is_word c = true <->
  97 <= c <= 122 \/ 65 <= c <= 90 \/ 48 <= c <= 57 \/ c = 95.
Proof.
  unfold is_word, is_digit.
  rewrite !orb_true_iff, !in_range_spec, N.eqb_eq. tauto.
Qed.

Lemma printable_not_ws (c : N) : 33 <= c <= 122 -> is_ws c = false.
Proof.
  intros H. unfold is_ws, in_range. settle_cmp. reflexivity.
Qed.

Lemma ws_not_digit_comma_dot (c : N) :
  is_ws c = true -> digit_comma_dot c = false.
Proof.
  intros H. destruct (digit_comma_dot c) eqn:E; [|reflexivity].
  apply digit_comma_dot_spec in E.
  rewrite printable_not_ws in H by lia. discriminate H.
Qed.

Lemma word_not_ws (c : N) : is_word c = true -> is_ws c = false.
Proof.
  intros H. apply is_word_spec in H. apply printable_not_ws. lia.
Qed.

Lemma letter_not_digit_comma_dot (c : N) :
  is_word c = true -> is_digit c = false -> digit_comma_dot c = false.
Proof.
  intros H D. destruct (digit_comma_dot c) eqn:E; [|reflexivity].
  apply digit_comma_dot_spec in E. apply is_word_spec in H.
  unfold is_digit in D.
  assert (~ 48 <= c <= 57) by (rewrite <- in_range_spec; congruence).
  lia.
Qed.

Lemma skipn_length_app (a b : jsstring) : skipn (List.length a) (a ++ b) = b.
Proof. induction a as [|c a IH]; simpl; [reflexivity | exact IH]. Qed.

Lemma firstn_length_app (a b : jsstring) :
  firstn (List.length a) (a ++ b) = a.
Proof. induction a as [|c a IH]; simpl; [reflexivity | now rewrite IH]. Qed.

Lemma run_length_all (p : N -> bool) (a : jsstring) :
  forallb p a = true -> run_length p a = List.length a.
Proof.
  intros H. rewrite <- (app_nil_r a) at 1.
  rewrite run_length_app by exact H. simpl. lia.
Qed.

(** The other way round: a string of that shape whose unit word does not
    start with a digit is matched, and the greedy number takes all of
    [num]. *)
Lemma measurePattern_complete (s num unit_word : jsstring) :
  measure_shape s num unit_word ->
  starts_with_digit unit_word = false ->
  exists m, exec measurePattern s = Some m
            /\ dollar 1 m = num /\ dollar 2 m = unit_word.
Proof.
  intros (space & -> & Nn & Dn & Ws & Nu & Wu) Hd.
  destruct unit_word as [|u0 unit_tail] eqn:Eu; [congruence|].
  rewrite <- Eu in *. assert (W0 : is_word u0 = true).
  { rewrite Eu in Wu. simpl in Wu. now apply andb_true_iff in Wu. }
  assert (D0 : is_digit u0 = false) by (rewrite Eu in Hd; exact Hd).
  assert (R3 : run_length is_word unit_word = List.length unit_word)
    by now apply run_length_all.
  assert (R2 : run_length is_ws (space ++ unit_word) = List.length space).
  { rewrite run_length_app by exact Ws. rewrite Eu. simpl.
    rewrite (word_not_ws u0 W0). lia. }
  assert (R1 : run_length digit_comma_dot (num ++ space ++ unit_word)
               = List.length num).
  { rewrite run_length_app by exact Dn.
    destruct space as [|w space]; simpl.
    - rewrite Eu. simpl.
      rewrite (letter_not_digit_comma_dot u0 W0 D0). lia.
    - simpl in Ws. apply andb_true_iff in Ws as [Ws _].
      rewrite (ws_not_digit_comma_dot w Ws). lia. }
  assert (L : (1 <= List.length num)%nat)
    by (destruct num; [congruence | simpl; lia]).
  assert (Lu : (1 <= List.length unit_word)%nat)
    by (rewrite Eu; simpl; lia).
  unfold measurePattern. cbn [seq]. rewrite exec_anchored.
  match goal with
  | |- context [re_match ?r 0 ?t [] accept] =>
      eassert (H : re_match r 0 t [] accept = Some _)
  end.
  { cbn [re_match plus star].
    apply rep_greedy; rewrite R1; [exact L|].
    rewrite skipn_length_app.
    apply rep_greedy; rewrite R2; [lia|].
    rewrite skipn_length_app.
    apply rep_greedy; rewrite R3; [exact Lu|].
    rewrite skipn_all. unfold accept. reflexivity. }
  rewrite H. eexists. split; [reflexivity|].
  cbn [dollar capture Nat.eqb]. split.
  - replace (0 + List.length num - 0)%nat with (List.length num) by lia.
    apply firstn_length_app.
  - match goal with
    | |- firstn ?n _ = _ =>
        replace n with (List.length unit_word) by lia
    end.
    apply firstn_all.
Qed.

Lemma is_digit_lower (c : N) : is_digit (lower_unit c) = is_digit c.
Proof.
  unfold lower_unit. destruct (in_range 65 90 c) eqn:E; [|reflexivity].
  apply in_range_spec in E.
  unfold is_digit, in_range. settle_cmp. reflexivity.
Qed.

Lemma starts_with_digit_lower (s : jsstring) :
  starts_with_digit (toLowerCase s) = starts_with_digit s.
Proof. destruct s as [|c s]; simpl; [reflexivity | apply is_digit_lower]. Qed.

(** No spelling of a unit starts with a digit. *)
Lemma units_start_with_letters (variations : list jsstring) (w : jsstring) :
  In variations (values MEASUREMENT_VARIATIONS) -> In w variations ->
  starts_with_digit w = false.
Proof.
  assert (T : forallb (forallb (fun w => negb (starts_with_digit w)))
                (values MEASUREMENT_VARIATIONS) = true)
    by (vm_compute; reflexivity).
  intros Hv Hw. rewrite forallb_forall in T. specialize (T _ Hv).
  rewrite forallb_forall in T. specialize (T _ Hw).
  now apply negb_true_iff in T.
Qed.

(** [matchMeasurement] in the words of the specification: both
    normalized operands are a number, optional white space and a unit
    word; the numbers without commas are equal; one family of the table
    holds both unit words. *)
Lemma matchMeasurement_shape (userAnswer correctAnswer : jsstring) :
  matchMeasurement userAnswer correctAnswer = true <->
  exists userNum userUnit correctNum correctUnit,
    measure_shape (normalizeString userAnswer) userNum userUnit
    /\ measure_shape (normalizeString correctAnswer) correctNum correctUnit
    /\ remove_commas userNum = remove_commas correctNum
    /\ exists variations,
        In variations (values MEASUREMENT_VARIATIONS)
        /\ In (toLowerCase userUnit) variations
        /\ In (toLowerCase correctUnit) variations.
Proof.
  rewrite matchMeasurement_true. split.
  - intros (um & cm & Hu & Hc & Hn & Hv).
    exists (dollar 1 um), (dollar 2 um), (dollar 1 cm), (dollar 2 cm).
    repeat split; try assumption; now apply measurePattern_sound.
  - intros (n1 & u1 & n2 & u2 & S1 & S2 & Hn & fam & Hf & I1 & I2).
    pose proof (units_start_with_letters fam _ Hf I1) as D1.
    pose proof (units_start_with_letters fam _ Hf I2) as D2.
    rewrite starts_with_digit_lower in D1, D2.
    destruct (measurePattern_complete _ _ _ S1 D1) as (um & Eu & <- & <-).
    destruct (measurePattern_complete _ _ _ S2 D2) as (cm & Ec & <- & <-).
    exists um, cm. repeat split; try assumption. exists fam. tauto.
Qed.

(** C8 (the code departs from the claim): "5km" is accepted for
    "5 kilometres" and rejected for "6km", but "5 km" is accepted for
    "5 miles": the measurement matcher rejects the pair, and the date
    matcher then accepts it, both strings having the shape of a day
    followed by a month. *)
Theorem km_accepted_for_miles :
  checkAnswer (lit "5 km") (lit "5 miles") None = true
  /\ matchMeasurement (lit "5 km") (lit "5 miles") = false
  /\ matchDate (lit "5 km") (lit "5 miles") = true
  /\ checkAnswer (lit "5km") (lit "5 kilometres") None = true
  /\ checkAnswer (lit "5km") (lit "6km") None = false.
Proof. repeat split; vm_compute; reflexivity. Qed.

End IeltsFacts.

(** ** Further properties of the checker *)

Module Coverage.
Import Js Re Ielts JsFacts ReFacts IeltsFacts.

(** *** Symmetry of the comparisons *)

Lemma str_eqb_sym (a b : jsstring) : str_eqb a b = str_eqb b a.
Proof.
  revert b; induction a as [|x a IH]; intros [|y b]; simpl; try reflexivity.
  now rewrite N.eqb_sym, IH.
Qed.

Lemma matchDate_loop_sym (patterns : list regex) (a b : jsstring) :
  matchDate_loop patterns a b = matchDate_loop patterns b a.
Proof.
  induction patterns as [|p ps IH]; simpl; [reflexivity|].
  now rewrite andb_comm, IH.
Qed.

Lemma matchNumber_loop_sym (sets : list (list jsstring)) (a b : jsstring) :
  matchNumber_loop sets a b = matchNumber_loop sets b a.
Proof.
  induction sets as [|w sets IH]; simpl; [reflexivity|].
  now rewrite andb_comm, IH.
Qed.

Lemma matchMeasurement_loop_sym (sets : list (list jsstring))
      (a b : jsstring) (n : bool) :
  matchMeasurement_loop sets a b n = matchMeasurement_loop sets b a n.
Proof.
  induction sets as [|w sets IH]; simpl; [reflexivity|].
  now rewrite andb_comm, IH.
Qed.

Lemma matchCurrency_loop_sym (sets : list (list jsstring))
      (s1 : jsstring) (w1 : option jsstring)
      (s2 : jsstring) (w2 : option jsstring) :
  matchCurrency_loop sets s1 w1 s2 w2 = matchCurrency_loop sets s2 w2 s1 w1.
Proof.
  induction sets as [|w sets IH]; simpl; [reflexivity|].
  now rewrite andb_comm, IH.
Qed.

Lemma matchTime_sym (a b : jsstring) : matchTime a b = matchTime b a.
Proof. unfold matchTime. apply str_eqb_sym. Qed.

Lemma matchNumber_sym (a b : jsstring) : matchNumber a b = matchNumber b a.
Proof.
  unfold matchNumber.
  now rewrite str_eqb_sym, matchNumber_loop_sym.
Qed.

Lemma matchMeasurement_sym (a b : jsstring) :
  matchMeasurement a b = matchMeasurement b a.
Proof.
  unfold matchMeasurement.
  destruct (exec measurePattern (normalizeString a));
    destruct (exec measurePattern (normalizeString b)); try reflexivity.
  now rewrite str_eqb_sym, matchMeasurement_loop_sym.
Qed.

Lemma matchCurrency_sym (a b : jsstring) :
  matchCurrency a b = matchCurrency b a.
Proof.
  unfold matchCurrency.
  destruct (exec currencyPattern (normalizeString a));
    destruct (exec currencyPattern (normalizeString b)); try reflexivity.
  now rewrite str_eqb_sym, matchCurrency_loop_sym.
Qed.

Lemma matchPhoneNumber_sym (a b : jsstring) :
  matchPhoneNumber a b = matchPhoneNumber b a.
Proof. unfold matchPhoneNumber. apply str_eqb_sym. Qed.

Lemma matchDate_sym (a b : jsstring) : matchDate a b = matchDate b a.
Proof. unfold matchDate. apply matchDate_loop_sym. Qed.

(** *** The last rule of the loop *)

Lemma hyphens_after_spaces (s : jsstring) :
  replace_class (N.eqb HYPHEN) [SPACE] (replace_class (N.eqb SPACE) [HYPHEN] s)
  = replace_class (N.eqb HYPHEN) [SPACE] s.
Proof.
  unfold replace_class.
  induction s as [|c s IH]; [reflexivity|].
  cbn [flat_map]. rewrite flat_map_app, IH. f_equal.
  destruct (N.eqb_spec SPACE c) as [<-|Hs]; [reflexivity|].
  cbn [flat_map]. now rewrite app_nil_r.
Qed.

(** The body of the loop as a disjunction of its rules. *)
Lemma check_alternative_rules (user correct : jsstring) :
  check_alternative user correct =
  str_eqb user correct
  || str_eqb (removeAllSpaces user) (removeAllSpaces correct)
  || matchTime user correct
  || matchNumber user correct
  || matchMeasurement user correct
  || matchCurrency user correct
  || matchPhoneNumber user correct
  || matchDate user correct
  || str_eqb (withoutThe user) (withoutThe correct)
  || str_eqb (withoutArticle user) (withoutArticle correct)
  || (str_eqb (user ++ lit "s") correct || str_eqb user (correct ++ lit "s"))
  || (str_eqb (user ++ lit "es") correct || str_eqb user (correct ++ lit "es"))
  || str_eqb (withoutHyphens user) (withoutHyphens correct)
  || str_eqb (replace_all (chr SPACE) (fun _ => lit "-") user) correct.
Proof.
  assert (I : forall b x : bool, (if b then true else x) = b || x)
    by (intros [|] x; reflexivity).
  unfold check_alternative. rewrite !I, orb_false_r, !orb_assoc.
  reflexivity.
Qed.

Lemma space_to_hyphen_subsumed (user correct : jsstring) :
  str_eqb (replace_all (chr SPACE) (fun _ => lit "-") user) correct = true ->
  str_eqb (withoutHyphens user) (withoutHyphens correct) = true.
Proof.
  intros H. apply str_eqb_eq in H. apply str_eqb_eq. subst correct.
  unfold withoutHyphens, chr. rewrite !replace_all_class.
  symmetry. apply hyphens_after_spaces.
Qed.

Lemma check_alternative_thirteen (user correct : jsstring) :
  check_alternative user correct =
  str_eqb user correct
  || str_eqb (removeAllSpaces user) (removeAllSpaces correct)
  || matchTime user correct
  || matchNumber user correct
  || matchMeasurement user correct
  || matchCurrency user correct
  || matchPhoneNumber user correct
  || matchDate user correct
  || str_eqb (withoutThe user) (withoutThe correct)
  || str_eqb (withoutArticle user) (withoutArticle correct)
  || (str_eqb (user ++ lit "s") correct || str_eqb user (correct ++ lit "s"))
  || (str_eqb (user ++ lit "es") correct || str_eqb user (correct ++ lit "es"))
  || str_eqb (withoutHyphens user) (withoutHyphens correct).
Proof.
  rewrite check_alternative_rules.
  destruct (str_eqb (replace_all (chr SPACE) (fun _ => lit "-") user) correct)
    eqn:E.
  - rewrite (space_to_hyphen_subsumed user correct E).
    now rewrite !orb_true_r.
  - now rewrite orb_false_r.
Qed.

Lemma check_alternative_sym (a b : jsstring) :
  check_alternative a b = check_alternative b a.
Proof.
  rewrite !check_alternative_thirteen.
  rewrite (str_eqb_sym a b),
    (str_eqb_sym (removeAllSpaces a) (removeAllSpaces b)),
    (matchTime_sym a b), (matchNumber_sym a b), (matchMeasurement_sym a b),
    (matchCurrency_sym a b), (matchPhoneNumber_sym a b), (matchDate_sym a b),
    (str_eqb_sym (withoutThe a) (withoutThe b)),
    (str_eqb_sym (withoutArticle a) (withoutArticle b)),
    (str_eqb_sym (withoutHyphens a) (withoutHyphens b)),
    (str_eqb_sym (a ++ lit "s") b), (str_eqb_sym a (b ++ lit "s")),
    (str_eqb_sym (a ++ lit "es") b), (str_eqb_sym a (b ++ lit "es")).
  rewrite (orb_comm (str_eqb b (a ++ lit "s"))),
    (orb_comm (str_eqb b (a ++ lit "es"))).
  reflexivity.
Qed.

(** X1: the space-to-hyphen rule that ends the loop body decides
    nothing: whenever it holds, the hyphen rule before it holds, so the
    body is the disjunction of the thirteen rules before it. *)
Theorem last_rule_never_decides (user correct : jsstring) :
  (str_eqb (replace_all (chr SPACE) (fun _ => lit "-") user) correct = true ->
   str_eqb (withoutHyphens user) (withoutHyphens correct) = true)
  /\ check_alternative user correct =
     (str_eqb user correct
      || str_eqb (removeAllSpaces user) (removeAllSpaces correct)
      || matchTime user correct
      || matchNumber user correct
      || matchMeasurement user correct
      || matchCurrency user correct
      || matchPhoneNumber user correct
      || matchDate user correct
      || str_eqb (withoutThe user) (withoutThe correct)
      || str_eqb (withoutArticle user) (withoutArticle correct)
      || (str_eqb (user ++ lit "s") correct
          || str_eqb user (correct ++ lit "s"))
      || (str_eqb (user ++ lit "es") correct
          || str_eqb user (correct ++ lit "es"))
      || str_eqb (withoutHyphens user) (withoutHyphens correct)).
Proof.
  split; [apply space_to_hyphen_subsumed | apply check_alternative_thirteen].
Qed.

Lemma last_rule_on_well_known :
  str_eqb (replace_all (chr SPACE) (fun _ => lit "-") (lit "well known"))
    (lit "well-known") = true
  /\ str_eqb (withoutHyphens (lit "well known"))
       (withoutHyphens (lit "well-known")) = true.
Proof.
  assert (H : str_eqb (replace_all (chr SPACE) (fun _ => lit "-")
                         (lit "well known")) (lit "well-known") = true)
    by (vm_compute; reflexivity).
  split; [exact H|].
  exact (proj1 (last_rule_never_decides (lit "well known")
                  (lit "well-known")) H).
Defined.

(** X2: with no ['/'] in either string, the verdict of
    [checkIeltsAnswer] does not depend on which string is the user
    answer and which the correct answer. *)
Theorem checkIeltsAnswer_symmetric (a b : jsstring) :
  ~ In SLASH a -> ~ In SLASH b ->
  checkIeltsAnswer a b = checkIeltsAnswer b a.
Proof.
  intros Ha Hb.
  rewrite (checkIeltsAnswer_single a b Hb), (checkIeltsAnswer_single b a Ha).
  now rewrite orb_comm, check_alternative_sym.
Qed.

Lemma symmetric_on_twelve :
  (~ In SLASH (lit "12") /\ ~ In SLASH (lit "twelve"))
  /\ checkIeltsAnswer (lit "12") (lit "twelve")
     = checkIeltsAnswer (lit "twelve") (lit "12").
Proof.
  assert (F1 : ~ In SLASH (lit "12")) by no_slash.
  assert (F2 : ~ In SLASH (lit "twelve")) by no_slash.
  split; [auto|].
  exact (checkIeltsAnswer_symmetric (lit "12") (lit "twelve") F1 F2).
Defined.

(** *** Case and surrounding white space *)

Lemma falsy_lower (s : jsstring) : falsy (toLowerCase s) = falsy s.
Proof. now destruct s. Qed.

Lemma normalizeString_lower (s : jsstring) :
  normalizeString (toLowerCase s) = normalizeString s.
Proof. rewrite !normalizeString_runs. now rewrite toLowerCase_idem. Qed.

Lemma lower_unit_sep (sep c : N) :
  sep < 65 -> (lower_unit c =? sep) = (c =? sep).
Proof.
  intros H. unfold lower_unit. destruct (in_range 65 90 c) eqn:E;
    [|reflexivity].
  apply in_range_spec in E.
  rewrite (proj2 (N.eqb_neq _ _)) by lia.
  rewrite (proj2 (N.eqb_neq _ _)) by lia. reflexivity.
Qed.

Lemma split_lower (sep : N) (s : jsstring) :
  sep < 65 ->
  split sep (toLowerCase s) = List.map toLowerCase (split sep s).
Proof.
  intros H. induction s as [|c s IH]; [reflexivity|].
  cbn [toLowerCase List.map split]. fold (toLowerCase s).
  rewrite (lower_unit_sep sep c H), IH.
  destruct (c =? sep); [reflexivity|].
  destruct (split sep s); reflexivity.
Qed.

Lemma acceptableAnswers_lower (c : jsstring) :
  acceptableAnswers (toLowerCase c) = acceptableAnswers c.
Proof.
  unfold acceptableAnswers. rewrite split_lower by reflexivity.
  rewrite map_map. apply map_ext. intros a. cbv beta.
  now rewrite trim_lower, normalizeString_lower.
Qed.

Lemma options_lower (s : jsstring) : options (toLowerCase s) = options s.
Proof.
  unfold options. rewrite split_lower by reflexivity.
  rewrite map_map. f_equal. apply map_ext. intros a. cbv beta.
  apply normalizeString_lower.
Qed.

(** X3: the verdict of [checkAnswer], whatever the question type, is
    the same when either argument is replaced by its lowercase form. *)
Theorem checkAnswer_ignores_case
        (userAnswer correctAnswer : jsstring)
        (questionType : option jsstring) :
  checkAnswer (toLowerCase userAnswer) correctAnswer questionType
  = checkAnswer userAnswer correctAnswer questionType
  /\ checkAnswer userAnswer (toLowerCase correctAnswer) questionType
     = checkAnswer userAnswer correctAnswer questionType.
Proof.
  assert (I1 : forall u c,
             checkIeltsAnswer (toLowerCase u) c = checkIeltsAnswer u c).
  { intros u c. unfold checkIeltsAnswer.
    now rewrite falsy_lower, normalizeString_lower. }
  assert (I2 : forall u c,
             checkIeltsAnswer u (toLowerCase c) = checkIeltsAnswer u c).
  { intros u c. unfold checkIeltsAnswer.
    now rewrite falsy_lower, acceptableAnswers_lower. }
  assert (M1 : forall u c,
             checkMultipleChoiceMultiple (toLowerCase u) c
             = checkMultipleChoiceMultiple u c).
  { intros u c. unfold checkMultipleChoiceMultiple.
    now rewrite falsy_lower, options_lower. }
  assert (M2 : forall u c,
             checkMultipleChoiceMultiple u (toLowerCase c)
             = checkMultipleChoiceMultiple u c).
  { intros u c. unfold checkMultipleChoiceMultiple.
    now rewrite falsy_lower, options_lower. }
  unfold checkAnswer. destruct questionType as [t|]; [|now split].
  destruct (str_eqb t MULTIPLE_CHOICE_MULTIPLE); now split.
Qed.

Lemma trim_not_nil (s : jsstring) : trim s <> [] -> s <> [].
Proof. intros H E. subst. now apply H. Qed.

(** X4: white space around the user answer does not change the verdict
    of [checkIeltsAnswer], as long as the answer is not white space
    only. *)
Theorem checkIeltsAnswer_ignores_outer_space
        (userAnswer correctAnswers : jsstring) :
  trim userAnswer <> [] ->
  checkIeltsAnswer (trim userAnswer) correctAnswers
  = checkIeltsAnswer userAnswer correctAnswers.
Proof.
  intros H. pose proof (trim_not_nil userAnswer H) as H'.
  unfold checkIeltsAnswer.
  now rewrite (falsy_cons _ H), (falsy_cons _ H'), normalizeString_trim.
Qed.

Lemma outer_space_around_hotel :
  trim (lit "  Hotel ") <> []
  /\ checkIeltsAnswer (trim (lit "  Hotel ")) (lit "hotel")
     = checkIeltsAnswer (lit "  Hotel ") (lit "hotel").
Proof.
  assert (H : trim (lit "  Hotel ") <> []) by (vm_compute; discriminate).
  split; [exact H|].
  exact (checkIeltsAnswer_ignores_outer_space (lit "  Hotel ") (lit "hotel") H).
Defined.

Lemma check_alternative_nospace (user correct : jsstring) :
  removeAllSpaces user = removeAllSpaces correct ->
  check_alternative user correct = true.
Proof.
  intros H. rewrite check_alternative_rules, H, str_eqb_refl.
  now rewrite orb_true_r.
Qed.

Lemma removeAllSpaces_normalizeString (s : jsstring) :
  removeAllSpaces (normalizeString s) = removeAllSpaces (toLowerCase s).
Proof.
  rewrite !removeAllSpaces_filter, normalizeString_runs.
  unfold replace_runs. change [SPACE] with [32].
  now rewrite filter_replace_runs, filter_trim.
Qed.

(** X5: a non-empty user answer is accepted for a non-empty correct
    answer without ['/'] as soon as the two are equal up to letter case
    and white space, wherever the white space stands.  The two answers
    are made of Basic Latin characters and white space, the strings on
    which [toLowerCase] is the case mapping of the code. *)
Theorem equal_up_to_case_and_space_accepted
        (userAnswer correctAnswer : jsstring) :
  basic_latin userAnswer = true -> basic_latin correctAnswer = true ->
  userAnswer <> [] -> correctAnswer <> [] -> ~ In SLASH correctAnswer ->
  removeAllSpaces (toLowerCase userAnswer)
  = removeAllSpaces (toLowerCase correctAnswer) ->
  checkIeltsAnswer userAnswer correctAnswer = true.
Proof.
  intros _ _ Nu Nc Hfree H.
  rewrite (checkIeltsAnswer_single userAnswer correctAnswer Hfree).
  rewrite (falsy_cons _ Nu), (falsy_cons _ Nc). cbn [orb].
  apply check_alternative_nospace.
  now rewrite !removeAllSpaces_normalizeString.
Qed.

Lemma twenty_twenty_accepted :
  (basic_latin (lit "20 20") = true /\ basic_latin (lit "2020") = true
   /\ lit "20 20" <> [] /\ lit "2020" <> [] /\ ~ In SLASH (lit "2020")
   /\ removeAllSpaces (toLowerCase (lit "20 20"))
      = removeAllSpaces (toLowerCase (lit "2020")))
  /\ checkIeltsAnswer (lit "20 20") (lit "2020") = true.
Proof.
  assert (B1 : basic_latin (lit "20 20") = true) by reflexivity.
  assert (B2 : basic_latin (lit "2020") = true) by reflexivity.
  assert (N1 : lit "20 20" <> []) by discriminate.
  assert (N2 : lit "2020" <> []) by discriminate.
  assert (F : ~ In SLASH (lit "2020")) by no_slash.
  assert (E : removeAllSpaces (toLowerCase (lit "20 20"))
              = removeAllSpaces (toLowerCase (lit "2020")))
    by (vm_compute; reflexivity).
  split; [auto 10|].
  exact (equal_up_to_case_and_space_accepted (lit "20 20") (lit "2020")
           B1 B2 N1 N2 F E).
Defined.

(** *** Multiple selection as a relation *)

Lemma checkMultipleChoiceMultiple_members (u c : jsstring) :
  checkMultipleChoiceMultiple u c = true <->
  u <> [] /\ c <> [] /\ forall o, In o (options u) <-> In o (options c).
Proof.
  unfold checkMultipleChoiceMultiple.
  destruct u as [|x u]; [simpl; intuition congruence|].
  destruct c as [|y c]; [simpl; intuition congruence|].
  cbn [falsy orb].
  set (U := options (x :: u)). set (C := options (y :: c)).
  split.
  - intros H.
    destruct (Nat.eqb (Set_size (Set_of U)) (Set_size (Set_of C)));
      cbn [negb] in H; [|discriminate H].
    apply andb_true_iff in H as [H1 H2].
    apply forallb_Set_has in H1, H2.
    repeat split; try discriminate.
    + intros Ho. apply Set_of_In, H1, Set_of_In, Ho.
    + intros Ho. apply Set_of_In, H2, Set_of_In, Ho.
  - intros (_ & _ & H).
    assert (I1 : incl (Set_of U) (Set_of C)).
    { intros o Ho. apply Set_of_In, H, Set_of_In, Ho. }
    assert (I2 : incl (Set_of C) (Set_of U)).
    { intros o Ho. apply Set_of_In, H, Set_of_In, Ho. }
    rewrite (Set_size_incl U C I1 I2), Nat.eqb_refl. cbn [negb].
    apply andb_true_iff. split; now apply forallb_Set_has.
Qed.

(** X6: on non-empty strings [checkMultipleChoiceMultiple] is an
    equivalence relation: it accepts every non-empty string for itself,
    its verdict does not depend on the order of its two arguments, and
    accepting [a] for [b] and [b] for [c] it accepts [a] for [c]. *)
Theorem multi_select_equivalence :
  (forall s, s <> [] -> checkMultipleChoiceMultiple s s = true)
  /\ (forall a b,
         checkMultipleChoiceMultiple a b = checkMultipleChoiceMultiple b a)
  /\ (forall a b c,
         checkMultipleChoiceMultiple a b = true ->
         checkMultipleChoiceMultiple b c = true ->
         checkMultipleChoiceMultiple a c = true).
Proof.
  split; [|split].
  - intros s H. apply checkMultipleChoiceMultiple_members.
    repeat split; auto.
  - intros a b.
    destruct (checkMultipleChoiceMultiple a b) eqn:E1;
      destruct (checkMultipleChoiceMultiple b a) eqn:E2; try reflexivity.
    + apply checkMultipleChoiceMultiple_members in E1 as (Na & Nb & H).
      rewrite <- E2. symmetry. apply checkMultipleChoiceMultiple_members.
      repeat split; auto; apply H.
    + apply checkMultipleChoiceMultiple_members in E2 as (Nb & Na & H).
      rewrite <- E1. apply checkMultipleChoiceMultiple_members.
      repeat split; auto; apply H.
  - intros a b c H1 H2.
    apply checkMultipleChoiceMultiple_members in H1 as (Na & Nb & H1).
    apply checkMultipleChoiceMultiple_members in H2 as (_ & Nc & H2).
    apply checkMultipleChoiceMultiple_members.
    repeat split; auto.
    + intros H. apply H2, H1, H.
    + intros H. apply H1, H2, H.
Qed.

Lemma multi_select_equivalence_on_letters :
  checkMultipleChoiceMultiple (lit "A, c") (lit "A, c") = true
  /\ checkMultipleChoiceMultiple (lit "A, c") (lit "C,a,c") = true.
Proof.
  destruct multi_select_equivalence as (R & S & T).
  assert (N : lit "A, c" <> []) by discriminate.
  assert (H1 : checkMultipleChoiceMultiple (lit "A, c") (lit "c,A") = true)
    by (vm_compute; reflexivity).
  assert (H2 : checkMultipleChoiceMultiple (lit "c,A") (lit "C,a,c") = true)
    by (vm_compute; reflexivity).
  split; [exact (R (lit "A, c") N)|].
  exact (T (lit "A, c") (lit "c,A") (lit "C,a,c") H1 H2).
Defined.

Lemma split_join (sep : N) (l : list jsstring) :
  l <> [] -> (forall t, In t l -> ~ In sep t) ->
  split sep (join sep l) = l.
Proof.
  induction l as [|a l IH]; [congruence|]. intros _ H.
  destruct l as [|b l].
  - simpl. apply split_free, H. now left.
  - cbn [join]. rewrite split_app by (apply H; now left).
    f_equal. apply IH; [discriminate|].
    intros t Ht. apply H. now right.
Qed.

Lemma join_not_nil (sep : N) (l : list jsstring) : join sep l <> [] -> l <> [].
Proof. intros H E. subst. now apply H. Qed.

Lemma options_join (l : list jsstring) :
  l <> [] -> (forall t, In t l -> ~ In COMMA t) ->
  options (join COMMA l)
  = filter (fun o => negb (falsy o)) (List.map normalizeString l).
Proof.
  intros N H. unfold options. now rewrite split_join.
Qed.

Lemma In_options_join (l : list jsstring) (o : jsstring) :
  l <> [] -> (forall t, In t l -> ~ In COMMA t) ->
  In o (options (join COMMA l))
  <-> o <> [] /\ In o (List.map normalizeString l).
Proof.
  intros N H. rewrite options_join by assumption.
  rewrite filter_In, negb_true_iff.
  destruct o; simpl; intuition congruence.
Qed.

(** X7: for two lists of tokens without commas, joined with commas into
    non-empty strings, [checkMultipleChoiceMultiple] accepts exactly
    when the two lists have the same non-empty normalized tokens; in
    particular it accepts any reordering and any repetition of the
    tokens. *)
Theorem multi_select_on_token_lists (l1 l2 : list jsstring) :
  join COMMA l1 <> [] -> join COMMA l2 <> [] ->
  (forall t, In t l1 -> ~ In COMMA t) ->
  (forall t, In t l2 -> ~ In COMMA t) ->
  (checkMultipleChoiceMultiple (join COMMA l1) (join COMMA l2) = true <->
   forall o, o <> [] ->
             (In o (List.map normalizeString l1)
              <-> In o (List.map normalizeString l2)))
  /\ ((forall t, In t l1 <-> In t l2) ->
      checkMultipleChoiceMultiple (join COMMA l1) (join COMMA l2) = true).
Proof.
  intros J1 J2 F1 F2.
  pose proof (join_not_nil COMMA l1 J1) as N1.
  pose proof (join_not_nil COMMA l2 J2) as N2.
  assert (M : checkMultipleChoiceMultiple (join COMMA l1) (join COMMA l2)
              = true <->
              forall o, o <> [] ->
                        (In o (List.map normalizeString l1)
                         <-> In o (List.map normalizeString l2))).
  { rewrite checkMultipleChoiceMultiple_members. split.
    - intros (_ & _ & H) o No. specialize (H o).
      rewrite !In_options_join in H by assumption. tauto.
    - intros H. repeat split; try assumption;
        rewrite !In_options_join by assumption;
        intros (No & Ho); (split; [exact No | now apply (H _ No)]). }
  split; [exact M|].
  intros S. apply M. intros o _. rewrite !in_map_iff.
  split; intros (t & Et & Ht); exists t; (split; [exact Et | now apply S]).
Qed.

Lemma multi_select_reordered_letters :
  checkMultipleChoiceMultiple
    (join COMMA [lit "B"; lit "A"; lit "B"])
    (join COMMA [lit "A"; lit "B"]) = true.
Proof.
  assert (J1 : join COMMA [lit "B"; lit "A"; lit "B"] <> []) by discriminate.
  assert (J2 : join COMMA [lit "A"; lit "B"] <> []) by discriminate.
  assert (F1 : forall t, In t [lit "B"; lit "A"; lit "B"] -> ~ In COMMA t).
  { intros t [<-|[<-|[<-|[]]]]; no_slash. }
  assert (F2 : forall t, In t [lit "A"; lit "B"] -> ~ In COMMA t).
  { intros t [<-|[<-|[]]]; no_slash. }
  apply (proj2 (multi_select_on_token_lists _ _ J1 J2 F1 F2)).
  intros t. simpl. tauto.
Defined.

(** *** Number words that cannot be reached *)

Lemma normalizeNum_no_comma (s : jsstring) (x : N) :
  In x (normalizeNum s) -> x <> COMMA.
Proof.
  unfold normalizeNum. intros H. apply In_trim in H.
  fold (removeAllSpaces (remove_commas (toLowerCase s))) in H.
  rewrite removeAllSpaces_filter in H. apply filter_In in H as [H _].
  unfold remove_commas, chr in H. rewrite replace_all_class in H.
  unfold replace_class in H. apply in_flat_map in H as (c & _ & H).
  destruct (N.eqb_spec COMMA c) as [E|E]; [destruct H|].
  destruct H as [<-|[]]. congruence.
Qed.

Lemma normalizeNum_plain (s : jsstring) :
  spaced_or_grouped (normalizeNum s) = false.
Proof.
  unfold spaced_or_grouped.
  destruct (existsb _ (normalizeNum s)) eqn:E; [|reflexivity].
  apply existsb_exists in E as (x & Hin & Hx).
  apply orb_true_iff in Hx as [Hx|Hx].
  - rewrite (normalizeNum_no_ws s x Hin) in Hx. discriminate Hx.
  - apply N.eqb_eq in Hx. now apply normalizeNum_no_comma in Hin.
Qed.

(** X8: what [normalizeNum] returns holds no white space and no comma,
    so the five spellings of NUMBER_WORDS written with a space or a
    comma are equal to no operand: [matchNumber] accepts exactly when
    the normalized operands are equal or stand together in one set of
    the table among the spellings without space and comma. *)
Theorem number_words_with_space_never_match :
  (forall s, spaced_or_grouped (normalizeNum s) = false)
  /\ filter spaced_or_grouped (List.concat (values NUMBER_WORDS))
     = [lit "one hundred"; lit "one thousand"; lit "1,000";
        lit "one million"; lit "1,000,000"]
  /\ (forall userAnswer correctAnswer,
         matchNumber userAnswer correctAnswer = true <->
         normalizeNum userAnswer = normalizeNum correctAnswer
         \/ exists words,
             In words (values NUMBER_WORDS)
             /\ In (normalizeNum userAnswer)
                  (filter (fun w => negb (spaced_or_grouped w)) words)
             /\ In (normalizeNum correctAnswer)
                  (filter (fun w => negb (spaced_or_grouped w)) words)).
Proof.
  split; [exact normalizeNum_plain|]. split; [vm_compute; reflexivity|].
  intros u c. rewrite matchNumber_true. split.
  - intros [H|(w & Hw & H1 & H2)]; [now left|]. right. exists w.
    rewrite !filter_In, !normalizeNum_plain. tauto.
  - intros [H|(w & Hw & H1 & H2)]; [now left|]. right. exists w.
    apply filter_In in H1, H2. tauto.
Qed.

(** *** Currency *)

Lemma orelse_Some {A : Type} (a b : option A) (o : A) :
  orelse a b = Some o -> a = Some o \/ (a = None /\ b = Some o).
Proof. destruct a; simpl; intros H; [left; exact H | right; auto]. Qed.

Lemma skipn_nil_firstn (s : jsstring) (n : nat) :
  skipn n s = [] -> firstn n s = s.
Proof.
  intros H. rewrite <- (firstn_skipn n s) at 2. now rewrite H, app_nil_r.
Qed.

(** What follows the sign in a match of the currency pattern. *)
Lemma currency_tail_sound (pos : nat) (t : jsstring) (cs : captures)
      (e : nat) (rest : jsstring) (m : captures) :
  re_match
    (Cat (star is_ws)
       (Cat (Group 2 (plus digit_comma_dot))
          (Cat (star is_ws)
             (Cat (Opt (Group 3 (star (in_range 97 122)))) Eol))))
    pos t cs accept = Some (e, rest, m) ->
  exists space1 amount space2 word_,
    t = space1 ++ amount ++ space2 ++ word_
    /\ forallb is_ws space1 = true
    /\ amount <> [] /\ forallb digit_comma_dot amount = true
    /\ forallb is_ws space2 = true
    /\ forallb (in_range 97 122) word_ = true
    /\ (m = (3%nat, word_) :: (2%nat, amount) :: cs
        \/ (m = (2%nat, amount) :: cs /\ word_ = [])).
Proof.
  intros H. cbn [re_match plus star] in H.
  apply rep_sound in H as (n1 & Hn1 & H).
  apply rep_sound in H as (n2 & Hn2 & H).
  apply rep_sound in H as (n3 & Hn3 & H).
  set (t1 := skipn n1 t) in *. set (t2 := skipn n2 t1) in *.
  set (t3 := skipn n3 t2) in *.
  pose proof (run_length_le digit_comma_dot t1) as L2.
  assert (Et : t = firstn n1 t ++ firstn n2 t1 ++ firstn n3 t2 ++ t3).
  { unfold t3, t2, t1. now rewrite !firstn_skipn. }
  replace (pos + n1 + n2 - (pos + n1))%nat with n2 in H by lia.
  apply orelse_Some in H as [H|[_ H]].
  - apply rep_sound in H as (n4 & Hn4 & H).
    destruct (Nat.eqb _ _); [discriminate H|].
    destruct (skipn n4 t3) eqn:Hend; [|discriminate H].
    unfold accept in H. injection H as _ _ <-.
    replace (pos + n1 + n2 + n3 + n4 - (pos + n1 + n2 + n3))%nat
      with n4 by lia.
    pose proof (skipn_nil_firstn t3 n4 Hend) as F.
    exists (firstn n1 t), (firstn n2 t1), (firstn n3 t2), t3.
    repeat split; try (apply run_length_prefix; lia).
    + exact Et.
    + apply firstn_not_nil. lia.
    + rewrite <- F. apply run_length_prefix. lia.
    + left. now rewrite F.
  - destruct t3 eqn:Hend; [|discriminate H].
    unfold accept in H. injection H as _ _ <-.
    exists (firstn n1 t), (firstn n2 t1), (firstn n3 t2), [].
    repeat split; try (apply run_length_prefix; lia).
    + exact Et.
    + apply firstn_not_nil. lia.
    + right. split; reflexivity.
Qed.

(** A match of the currency pattern cuts the string into sign, amount
    and word, and captures them; group 3 is absent when there is no
    word. *)
Lemma currencyPattern_sound (s : jsstring) (m : captures) :
  exec currencyPattern s = Some m ->
  currency_shape s (dollar 1 m) (dollar 2 m) (dollar 3 m)
  /\ (capture 3 m = None \/ capture 3 m = Some (dollar 3 m)).
Proof.
  unfold currencyPattern. cbn [seq]. rewrite exec_anchored.
  destruct (re_match _ 0 s [] accept) as [[[e rest] cs]|] eqn:H;
    [|discriminate].
  intros Hm. injection Hm as ->.
  cbn [re_match] in H. apply orelse_Some in H as [H|[_ H]].
  - destruct s as [|c s']; [discriminate H|].
    destruct (currency_sign c) eqn:Ec; [|discriminate H].
    cbn [Nat.eqb] in H.
    apply currency_tail_sound
      in H as (sp1 & amt & sp2 & w & Et & W1 & Na & Da & W2 & Aw & Hm).
    assert (D : dollar 1 m = [c] /\ dollar 2 m = amt /\ dollar 3 m = w
                /\ (capture 3 m = None \/ capture 3 m = Some w)).
    { destruct Hm as [->|[-> ->]]; cbn; auto. }
    destruct D as (-> & -> & -> & C3). split; [|exact C3].
    exists sp1, sp2. repeat split; try assumption.
    + simpl. now rewrite Et.
    + right. exists c. auto.
  - apply currency_tail_sound
      in H as (sp1 & amt & sp2 & w & Et & W1 & Na & Da & W2 & Aw & Hm).
    assert (D : dollar 1 m = [] /\ dollar 2 m = amt /\ dollar 3 m = w
                /\ (capture 3 m = None \/ capture 3 m = Some w)).
    { destruct Hm as [->|[-> ->]]; cbn; auto. }
    destruct D as (-> & -> & -> & C3). split; [|exact C3].
    exists sp1, sp2. repeat split; try assumption. now left.
Qed.

Lemma toLowerCase_small_letters (w : jsstring) :
  forallb (in_range 97 122) w = true -> toLowerCase w = w.
Proof.
  induction w as [|c w IH]; simpl; [reflexivity|].
  intros H. apply andb_true_iff in H as [Hc Hw]. rewrite (IH Hw).
  f_equal. unfold lower_unit. apply in_range_spec in Hc.
  unfold in_range. settle_cmp. reflexivity.
Qed.

Lemma matchCurrency_loop_true (sets : list (list jsstring))
      (s1 : jsstring) (w1 : option jsstring)
      (s2 : jsstring) (w2 : option jsstring) :
  matchCurrency_loop sets s1 w1 s2 w2 = true ->
  exists variations,
    In variations sets /\ hasCurrency s1 w1 variations = true
    /\ hasCurrency s2 w2 variations = true.
Proof.
  induction sets as [|v sets IH]; simpl; [discriminate|].
  destruct (hasCurrency s1 w1 v && hasCurrency s2 w2 v) eqn:E.
  - apply andb_true_iff in E. intros _. exists v. tauto.
  - intros H. destruct (IH H) as (v' & Hin & H'). exists v'. tauto.
Qed.

Lemma hasCurrency_true (sign : jsstring) (w : option jsstring)
      (variations : list jsstring) :
  hasCurrency sign w variations = true ->
  In sign variations
  \/ exists x, w = Some x /\ In (toLowerCase x) variations.
Proof.
  unfold hasCurrency. intros H.
  apply existsb_exists in H as (v & Hin & Hv).
  apply orb_true_iff in Hv as [Hv|Hv].
  - apply str_eqb_eq in Hv. subst. now left.
  - destruct w as [x|]; [|discriminate Hv].
    apply str_eqb_eq in Hv. subst. right. exists x. auto.
Qed.

(** X9: [matchCurrency] accepts only operands that both have the shape
    of the currency pattern (optional sign, amount, optional word in
    small letters), whose amounts are equal once the commas are
    removed, and whose sign or word stand together in one family of
    CURRENCY_VARIATIONS. *)
Theorem matchCurrency_only_same_amount_and_currency
        (userAnswer correctAnswer : jsstring) :
  matchCurrency userAnswer correctAnswer = true ->
  exists userSign userAmount userWord correctSign correctAmount correctWord,
    currency_shape (normalizeString userAnswer)
      userSign userAmount userWord
    /\ currency_shape (normalizeString correctAnswer)
         correctSign correctAmount correctWord
    /\ remove_commas userAmount = remove_commas correctAmount
    /\ exists variations,
        In variations (values CURRENCY_VARIATIONS)
        /\ (In userSign variations \/ In userWord variations)
        /\ (In correctSign variations \/ In correctWord variations).
Proof.
  unfold matchCurrency.
  destruct (exec currencyPattern (normalizeString userAnswer))
    as [um|] eqn:Eu; [|discriminate].
  destruct (exec currencyPattern (normalizeString correctAnswer))
    as [cm|] eqn:Ec; [|discriminate].
  destruct (str_eqb (remove_commas (dollar 2 um))
                    (remove_commas (dollar 2 cm))) eqn:Ea;
    cbn [negb]; [|discriminate].
  apply str_eqb_eq in Ea. intros H.
  apply matchCurrency_loop_true in H as (v & Hv & H1 & H2).
  apply currencyPattern_sound in Eu as [Su Cu].
  apply currencyPattern_sound in Ec as [Sc Cc].
  assert (W : forall m s sg am,
             currency_shape s sg am (dollar 3 m) ->
             (capture 3 m = None \/ capture 3 m = Some (dollar 3 m)) ->
             hasCurrency (dollar 1 m) (capture 3 m) v = true ->
             In (dollar 1 m) v \/ In (dollar 3 m) v).
  { intros m s sg am (sp1 & sp2 & _ & _ & _ & _ & _ & _ & Az) C3 Hh.
    apply hasCurrency_true in Hh as [Hh|(x & Ex & Hx)]; [now left|].
    right. destruct C3 as [C3|C3]; rewrite C3 in Ex; [discriminate Ex|].
    injection Ex as <-. now rewrite toLowerCase_small_letters in Hx. }
  exists (dollar 1 um), (dollar 2 um), (dollar 3 um),
    (dollar 1 cm), (dollar 2 cm), (dollar 3 cm).
  repeat split; try assumption.
  exists v. repeat split; [exact Hv | eapply W; eassumption
                           | eapply W; eassumption].
Qed.

Lemma fifty_dollars_same_currency :
  exists userSign userAmount userWord correctSign correctAmount correctWord,
    currency_shape (normalizeString (lit "$50"))
      userSign userAmount userWord
    /\ currency_shape (normalizeString (lit "50 Dollars"))
         correctSign correctAmount correctWord
    /\ remove_commas userAmount = remove_commas correctAmount
    /\ exists variations,
        In variations (values CURRENCY_VARIATIONS)
        /\ (In userSign variations \/ In userWord variations)
        /\ (In correctSign variations \/ In correctWord variations).
Proof.
  apply (matchCurrency_only_same_amount_and_currency
           (lit "$50") (lit "50 Dollars")).
  vm_compute. reflexivity.
Defined.

(** *** The normal form of the normalizer *)

Lemma lower_unit_not_upper (c : N) : is_upper (lower_unit c) = false.
Proof.
  unfold lower_unit, is_upper. destruct (in_range 65 90 c) eqn:E;
    [|exact E].
  apply in_range_spec in E. unfold in_range. settle_cmp. reflexivity.
Qed.

Lemma lower_unit_fixed (c : N) : is_upper c = false -> lower_unit c = c.
Proof. unfold lower_unit, is_upper. now intros ->. Qed.

Lemma toLowerCase_fixed (s : jsstring) :
  forallb (fun c => negb (is_upper c)) s = true -> toLowerCase s = s.
Proof.
  induction s as [|c s IH]; simpl; [reflexivity|].
  intros H. apply andb_true_iff in H as [Hc Hs].
  apply negb_true_iff in Hc. now rewrite (lower_unit_fixed c Hc), IH.
Qed.

Lemma forallb_replace_runs (P : N -> bool) (b : bool) (s : jsstring) :
  P 32 = true -> forallb P s = true ->
  forallb P (replace_runs_from is_ws [32] b s) = true.
Proof.
  intros H32. revert b; induction s as [|c s IH]; intros b H;
    [reflexivity|].
  simpl in H. apply andb_true_iff in H as [Hc Hs]. simpl.
  destruct (is_ws c).
  - rewrite forallb_app, (IH true Hs). destruct b; simpl;
      now rewrite ?H32.
  - simpl. now rewrite Hc, (IH false Hs).
Qed.

Lemma forallb_trim (P : N -> bool) (s : jsstring) :
  forallb P s = true -> forallb P (trim s) = true.
Proof.
  rewrite !forallb_forall. intros H x Hx. apply H, In_trim, Hx.
Qed.

Lemma normalizeString_no_upper (s : jsstring) :
  forallb (fun c => negb (is_upper c)) (normalizeString s) = true.
Proof.
  rewrite normalizeString_runs. unfold replace_runs. change [SPACE] with [32].
  apply forallb_replace_runs; [reflexivity|]. apply forallb_trim.
  unfold toLowerCase. rewrite forallb_forall. intros x Hx.
  apply in_map_iff in Hx as (y & <- & _).
  now rewrite lower_unit_not_upper.
Qed.

(** The collapse of the runs of a string without trailing white space,
    seen after a SPACE or after another unit. *)
Lemma spaced_replace_runs (s : jsstring) :
  trimEnd s = s ->
  (s <> [] -> spaced_from true (replace_runs_from is_ws [32] true s) = true)
  /\ spaced_from false (replace_runs_from is_ws [32] false s) = true.
Proof.
  induction s as [|c s IH]; intros H; [split; [congruence | reflexivity]|].
  rewrite trimEnd_cons in H.
  destruct (trimEnd s) as [|y r] eqn:Et.
  - destruct (is_ws c) eqn:E; [discriminate H|].
    injection H as <-. simpl. rewrite E. simpl. rewrite E. auto.
  - injection H as H. assert (Hs : trimEnd s = s) by congruence.
    assert (Ns : s <> []) by (rewrite <- H; discriminate).
    destruct (IH H) as [IHa IHb]. specialize (IHa Ns).
    simpl. destruct (is_ws c) eqn:E; simpl; rewrite ?E; auto.
Qed.

Lemma trimStart_fixed_head (c : N) (s : jsstring) :
  trimStart (c :: s) = c :: s -> is_ws c = false.
Proof.
  simpl. destruct (is_ws c); [|reflexivity]. intros H. exfalso.
  assert (L : (List.length (trimStart s) <= List.length s)%nat).
  { clear. induction s as [|x s IH]; simpl; [lia|].
    destruct (is_ws x); simpl; lia. }
  rewrite H in L. simpl in L. lia.
Qed.

Lemma well_spaced_normalizeString (s : jsstring) :
  well_spaced (normalizeString s) = true.
Proof.
  rewrite normalizeString_runs. unfold replace_runs. change [SPACE] with [32].
  pose proof (trimStart_trim (toLowerCase s)) as Hs.
  pose proof (trimEnd_trim (toLowerCase s)) as He.
  destruct (trim (toLowerCase s)) as [|c t] eqn:Et; [reflexivity|].
  pose proof (trimStart_fixed_head c t Hs) as Hc.
  pose proof (proj2 (spaced_replace_runs (c :: t) He)) as B.
  simpl in *. rewrite Hc in *. simpl in *. now rewrite Hc in *.
Qed.

Lemma spaced_fixed (x : jsstring) :
  (spaced_from false x = true -> replace_runs_from is_ws [32] false x = x)
  /\ (spaced_from true x = true ->
      replace_runs_from is_ws [32] false x = x
      /\ replace_runs_from is_ws [32] true x = x).
Proof.
  induction x as [|c x [IHf IHt]]; [split; [reflexivity | discriminate]|].
  simpl. destruct (is_ws c) eqn:E; split; intros H.
  - apply andb_true_iff in H as [H1 H2].
    apply andb_true_iff in H1 as [H1 _]. apply N.eqb_eq in H1. subst c.
    destruct (IHt H2) as [_ ->]. reflexivity.
  - apply andb_true_iff in H as [H1 _].
    apply andb_true_iff in H1 as [_ H1]. discriminate H1.
  - now rewrite (IHf H).
  - now rewrite (IHf H).
Qed.

Lemma spaced_trimEnd (b : bool) (x : jsstring) :
  spaced_from b x = true -> trimEnd x = x.
Proof.
  revert b; induction x as [|c x IH]; intros b H; [reflexivity|].
  rewrite trimEnd_cons. simpl in H. destruct (is_ws c) eqn:E.
  - apply andb_true_iff in H as [_ H]. rewrite (IH true H).
    destruct x; [discriminate H | reflexivity].
  - rewrite (IH false H). now destruct x.
Qed.

Lemma spaced_trimStart (x : jsstring) :
  spaced_from true x = true -> trimStart x = x.
Proof.
  destruct x as [|c x]; [reflexivity|]. simpl.
  destruct (is_ws c); [|reflexivity].
  intros H. apply andb_true_iff in H as [H _].
  apply andb_true_iff in H as [_ H]. discriminate H.
Qed.

Lemma normal_form_fixed (x : jsstring) :
  normal_form x = true -> normalizeString x = x.
Proof.
  unfold normal_form. intros H. apply andb_true_iff in H as [Hu Hw].
  rewrite normalizeString_runs, (toLowerCase_fixed x Hu).
  destruct x as [|c x]; [reflexivity|]. unfold well_spaced in Hw.
  unfold trim. rewrite (spaced_trimStart _ Hw), (spaced_trimEnd _ _ Hw).
  unfold replace_runs. change [SPACE] with [32].
  exact (proj1 (proj2 (spaced_fixed (c :: x)) Hw)).
Qed.

(** X10: [normalizeString] returns a string in normal form (no capital
    letter of Basic Latin, no white space at either end, single SPACE
    units as the only white space); among the strings made of Basic
    Latin characters and white space, on which [toLowerCase] is the
    case mapping of the code, those in normal form are exactly those it
    leaves unchanged; normalizing twice is normalizing once. *)
Theorem normalizeString_normal_form :
  (forall s, normal_form (normalizeString s) = true)
  /\ (forall x, basic_latin x = true ->
                (normalizeString x = x <-> normal_form x = true))
  /\ (forall s, normalizeString (normalizeString s) = normalizeString s).
Proof.
  assert (N : forall s, normal_form (normalizeString s) = true).
  { intros s. unfold normal_form.
    now rewrite normalizeString_no_upper, well_spaced_normalizeString. }
  split; [exact N|]. split.
  - intros x _. split; [intros <-; apply N | apply normal_form_fixed].
  - intros s. apply normal_form_fixed, N.
Qed.

Lemma bus_stop_is_normal :
  basic_latin (lit "bus stop") = true
  /\ (normalizeString (lit "bus stop") = lit "bus stop"
      <-> normal_form (lit "bus stop") = true).
Proof.
  assert (B : basic_latin (lit "bus stop") = true) by reflexivity.
  split; [exact B|].
  exact (proj1 (proj2 normalizeString_normal_form) (lit "bus stop") B).
Defined.

(** *** Any day number followed by any word *)

Lemma dayMonthPattern_second : nth 1 datePatterns Eps = dayMonthPattern.
Proof. reflexivity. Qed.

Lemma rep_greedy_bounded (p : N -> bool) (lo : nat) (hi : option nat)
      (pos : nat) (s : jsstring) (k : nat -> jsstring -> option outcome)
      (o : outcome) :
  (lo <= run_length p s)%nat ->
  match hi with Some h => (run_length p s <= h)%nat | None => True end ->
  k (pos + run_length p s)%nat (skipn (run_length p s) s) = Some o ->
  rep p lo hi pos s k = Some o.
Proof.
  revert lo hi pos; induction s as [|c s IH]; intros lo hi pos Hlo Hhi Hk.
  - simpl in *. assert (lo = 0%nat) by lia. subst.
    now rewrite Nat.add_0_r in Hk.
  - cbn [rep run_length] in *. destruct (p c); cbn [andb].
    + assert (C : can_more hi = true).
      { destruct hi as [[|h]|]; simpl in *; [lia | reflexivity | reflexivity]. }
      rewrite C.
      rewrite (IH (Nat.pred lo) (option_map Nat.pred hi) (S pos));
        [reflexivity | lia | |].
      * destruct hi as [h|]; simpl in *; [lia | exact I].
      * simpl in Hk. now rewrite Nat.add_succ_r in Hk.
    + assert (lo = 0%nat) by lia. subst. simpl in Hk.
      now rewrite Nat.add_0_r in Hk.
Qed.

Lemma rep_off_run (p : N -> bool) (lo : nat) (hi : option nat) (pos : nat)
      (s : jsstring) (k : nat -> jsstring -> option outcome) :
  run_length p s = 0%nat -> rep p (S lo) hi pos s k = None.
Proof.
  destruct s as [|c s]; simpl; [reflexivity|].
  destruct (p c); [discriminate | reflexivity].
Qed.

Lemma run_length_off (p : N -> bool) (s : jsstring) :
  match s with c :: _ => p c = false | [] => True end ->
  run_length p s = 0%nat.
Proof. destruct s as [|c s]; simpl; [reflexivity | now intros ->]. Qed.

Lemma words_hold_no_space (w : jsstring) :
  forallb is_word w = true -> run_length is_ws w = 0%nat.
Proof.
  intros H. apply run_length_off. destruct w as [|c w]; [exact I|].
  simpl in H. apply andb_true_iff in H as [H _]. now apply word_not_ws.
Qed.

Lemma suffix_skips_space (pos : nat) (t : jsstring) (cs : captures)
      (k : nat -> jsstring -> captures -> option outcome) :
  re_match ordinal_suffix pos (32 :: t) cs k = k pos (32 :: t) cs.
Proof. reflexivity. Qed.

Lemma of_then_space_fails (pos : nat) (t : jsstring) (cs : captures)
      (k : nat -> jsstring -> captures -> option outcome) :
  forallb is_word t = true ->
  re_match (word_i "of") pos t cs
    (fun pos' s' cs' => re_match (plus is_ws) pos' s' cs' k) = None.
Proof.
  intros H.
  change (word_i "of") with (Cat (chr_i 111) (chr_i 102)).
  destruct t as [|a [|b r]]; cbn [re_match chr_i plus]; [reflexivity | |].
  - now destruct (upper_unit a =? upper_unit 111).
  - destruct (upper_unit a =? upper_unit 111); [|reflexivity].
    destruct (upper_unit b =? upper_unit 102); [|reflexivity].
    apply rep_off_run, words_hold_no_space.
    simpl in H. apply andb_true_iff in H as [_ H].
    now apply andb_true_iff in H as [_ H].
Qed.

Lemma digit_not_ws (c : N) : is_digit c = true -> is_ws c = false.
Proof.
  intros H. apply in_range_spec in H. apply printable_not_ws. lia.
Qed.

(** The day-then-month pattern matches a day number, a SPACE and a
    word, whatever they are. *)
Lemma dayMonthPattern_matches (d w : jsstring) :
  day_number d = true -> one_word w = true ->
  test dayMonthPattern (d ++ SPACE :: w) = true.
Proof.
  unfold day_number, one_word. intros Hd Hw.
  apply andb_true_iff in Hd as [Dd Ld]. apply andb_true_iff in Ld as [L1 L2].
  apply Nat.leb_le in L1, L2.
  apply andb_true_iff in Hw as [Ww Nw]. apply negb_true_iff in Nw.
  change SPACE with 32.
  assert (R1 : run_length is_digit (d ++ 32 :: w) = List.length d).
  { rewrite run_length_app by exact Dd. simpl. lia. }
  assert (R2 : run_length is_ws (32 :: w) = 1%nat).
  { change (run_length is_ws (32 :: w)) with (S (run_length is_ws w)).
    now rewrite words_hold_no_space. }
  assert (R3 : run_length is_word w = List.length w)
    by now apply run_length_all.
  assert (Lw : (1 <= List.length w)%nat)
    by (destruct w; [discriminate Nw | simpl; lia]).
  unfold test, dayMonthPattern. cbn [seq]. rewrite exec_anchored.
  match goal with
  | |- context [re_match ?r 0 ?t [] accept] =>
      eassert (H : re_match r 0 t [] accept = Some _)
  end.
  { cbn [re_match]. apply rep_greedy_bounded; rewrite R1; [lia | lia |].
    rewrite skipn_length_app, suffix_skips_space.
    unfold plus at 1. apply rep_greedy; rewrite R2; [lia|].
    cbn [skipn]. rewrite of_then_space_fails by exact Ww. cbn [orelse].
    unfold plus. cbn [re_match]. apply rep_greedy; rewrite R3; [lia|].
    rewrite skipn_all. unfold accept. reflexivity. }
  now rewrite H.
Qed.

Lemma monthDayPattern_first : nth 0 datePatterns Eps = monthDayPattern.
Proof. reflexivity. Qed.

Lemma suffix_skips_end (pos : nat) (cs : captures)
      (k : nat -> jsstring -> captures -> option outcome) :
  re_match ordinal_suffix pos [] cs k = k pos [] cs.
Proof. reflexivity. Qed.

Lemma space_not_word : is_word 32 = false.
Proof. reflexivity. Qed.

(** The month-then-day pattern matches a word, a SPACE and a day
    number, whatever they are. *)
Lemma monthDayPattern_matches (w d : jsstring) :
  one_word w = true -> day_number d = true ->
  test monthDayPattern (w ++ SPACE :: d) = true.
Proof.
  unfold day_number, one_word. intros Hw Hd.
  apply andb_true_iff in Hd as [Dd Ld]. apply andb_true_iff in Ld as [L1 L2].
  apply Nat.leb_le in L1, L2.
  apply andb_true_iff in Hw as [Ww Nw]. apply negb_true_iff in Nw.
  change SPACE with 32.
  assert (R1 : run_length is_word (w ++ 32 :: d) = List.length w).
  { rewrite run_length_app by exact Ww. simpl. lia. }
  assert (R2 : run_length is_ws (32 :: d) = 1%nat).
  { change (run_length is_ws (32 :: d)) with (S (run_length is_ws d)).
    rewrite run_length_off; [reflexivity|].
    destruct d as [|c d]; [exact I|]. simpl in Dd.
    apply andb_true_iff in Dd as [Dd _]. now apply digit_not_ws. }
  assert (R3 : run_length is_digit d = List.length d)
    by now apply run_length_all.
  assert (Lw : (1 <= List.length w)%nat)
    by (destruct w; [discriminate Nw | simpl; lia]).
  unfold test, monthDayPattern. cbn [seq]. rewrite exec_anchored.
  match goal with
  | |- context [re_match ?r 0 ?t [] accept] =>
      eassert (H : re_match r 0 t [] accept = Some _)
  end.
  { cbn [re_match plus]. apply rep_greedy; rewrite R1; [lia|].
    rewrite skipn_length_app.
    apply rep_greedy; rewrite R2; [lia|]. cbn [skipn].
    apply rep_greedy_bounded; rewrite R3; [lia | lia |].
    rewrite skipn_all, suffix_skips_end. unfold accept. reflexivity. }
  now rewrite H.
Qed.

Lemma is_word_lower (c : N) : is_word (lower_unit c) = is_word c.
Proof.
  unfold lower_unit. destruct (in_range 65 90 c) eqn:E; [|reflexivity].
  apply in_range_spec in E.
  unfold is_word, is_digit, in_range. settle_cmp. reflexivity.
Qed.

Lemma one_word_lower (w : jsstring) :
  one_word (toLowerCase w) = one_word w.
Proof.
  unfold one_word. rewrite falsy_lower. f_equal.
  unfold toLowerCase. induction w as [|c w IH]; simpl; [reflexivity|].
  now rewrite is_word_lower, IH.
Qed.

Lemma day_number_lower (d : jsstring) :
  day_number (toLowerCase d) = day_number d.
Proof.
  unfold day_number, toLowerCase. rewrite length_map. f_equal.
  induction d as [|c d IH]; simpl; [reflexivity|].
  now rewrite is_digit_lower, IH.
Qed.

Lemma digit_is_word (c : N) : is_digit c = true -> is_word c = true.
Proof. unfold is_word. intros ->. now rewrite orb_true_r. Qed.

Lemma day_number_one_word (d : jsstring) :
  day_number d = true -> one_word d = true.
Proof.
  unfold day_number, one_word. intros H.
  apply andb_true_iff in H as [Dd Ld]. apply andb_true_iff in Ld as [L1 _].
  apply Nat.leb_le in L1. apply andb_true_iff. split.
  - rewrite forallb_forall in *. intros x Hx. apply digit_is_word, Dd, Hx.
  - destruct d; [simpl in L1; lia | reflexivity].
Qed.

Lemma spaced_after_word (b : bool) (a r : jsstring) :
  one_word a = true -> spaced_from b (a ++ r) = spaced_from false r.
Proof.
  unfold one_word. intros H. apply andb_true_iff in H as [Wa Na].
  destruct a as [|c a]; [discriminate Na|]. clear Na.
  revert b c Wa; induction a as [|c' a IH]; intros b c Wa.
  - simpl in *. apply andb_true_iff in Wa as [Wc _].
    now rewrite (word_not_ws c Wc).
  - simpl in Wa. apply andb_true_iff in Wa as [Wc Wa].
    change ((c :: c' :: a) ++ r) with (c :: ((c' :: a) ++ r)).
    cbn [spaced_from]. rewrite (word_not_ws c Wc). now apply IH.
Qed.

(** Two words separated by one SPACE normalize to their lowercase
    forms separated by one SPACE. *)
Lemma normalizeString_two_words (a b : jsstring) :
  one_word a = true -> one_word b = true ->
  normalizeString (a ++ SPACE :: b)
  = toLowerCase a ++ SPACE :: toLowerCase b.
Proof.
  intros Ha Hb. rewrite <- normalizeString_lower.
  replace (toLowerCase (a ++ SPACE :: b))
    with (toLowerCase a ++ SPACE :: toLowerCase b)
    by (unfold toLowerCase; now rewrite map_app).
  apply normal_form_fixed. unfold normal_form. apply andb_true_iff. split.
  - rewrite forallb_app. cbn [forallb].
    assert (U : forall s, forallb (fun c => negb (is_upper c))
                            (toLowerCase s) = true).
    { intros s. unfold toLowerCase. rewrite forallb_forall. intros x Hx.
      apply in_map_iff in Hx as (y & <- & _).
      now rewrite lower_unit_not_upper. }
    now rewrite !U.
  - rewrite <- one_word_lower in Ha, Hb.
    assert (Ne : toLowerCase a ++ SPACE :: toLowerCase b <> [])
      by (destruct (toLowerCase a); discriminate).
    unfold well_spaced.
    destruct (toLowerCase a ++ SPACE :: toLowerCase b) eqn:E; [congruence|].
    rewrite <- E. rewrite (spaced_after_word true _ _ Ha).
    cbn [spaced_from]. change (is_ws SPACE) with true. cbn.
    rewrite <- (app_nil_r (toLowerCase b)).
    now rewrite (spaced_after_word true _ _ Hb).
Qed.

Lemma check_alternative_date (user correct : jsstring) :
  matchDate user correct = true -> check_alternative user correct = true.
Proof.
  intros H. rewrite check_alternative_rules, H.
  now rewrite !orb_true_r.
Qed.

Lemma word_no_slash (w : jsstring) :
  forallb is_word w = true -> ~ In SLASH w.
Proof.
  intros H Hin. rewrite forallb_forall in H. apply H in Hin.
  discriminate Hin.
Qed.

Lemma two_words_no_slash (a b : jsstring) :
  one_word a = true -> one_word b = true -> ~ In SLASH (a ++ SPACE :: b).
Proof.
  unfold one_word. intros Ha Hb Hin.
  apply andb_true_iff in Ha as [Ha _]. apply andb_true_iff in Hb as [Hb _].
  apply in_app_or in Hin as [Hin|[Hin|Hin]].
  - now apply (word_no_slash a Ha).
  - discriminate Hin.
  - now apply (word_no_slash b Hb).
Qed.

(** Both operands match one date pattern once normalized. *)
Lemma same_date_pattern_accepted (pattern : regex)
      (a1 b1 a2 b2 : jsstring) :
  In pattern datePatterns ->
  one_word a1 = true -> one_word b1 = true ->
  one_word a2 = true -> one_word b2 = true ->
  test pattern (toLowerCase a1 ++ SPACE :: toLowerCase b1) = true ->
  test pattern (toLowerCase a2 ++ SPACE :: toLowerCase b2) = true ->
  checkIeltsAnswer (a1 ++ SPACE :: b1) (a2 ++ SPACE :: b2) = true.
Proof.
  intros Hp A1 B1 A2 B2 T1 T2.
  rewrite (checkIeltsAnswer_single _ _ (two_words_no_slash a2 b2 A2 B2)).
  assert (N1 : falsy (a1 ++ SPACE :: b1) = false) by now destruct a1.
  assert (N2 : falsy (a2 ++ SPACE :: b2) = false) by now destruct a2.
  rewrite N1, N2. cbn [orb].
  apply check_alternative_date. unfold matchDate.
  rewrite !normalizeString_idem.
  rewrite (normalizeString_two_words a1 b1 A1 B1),
    (normalizeString_two_words a2 b2 A2 B2).
  apply matchDate_loop_true. exists pattern. auto.
Qed.

(** X11: whatever the day numbers (one or two digits) and the words,
    [checkIeltsAnswer] accepts a day number followed by a word for any
    other day number followed by any other word, and a word followed by
    a day number for any other word followed by any other day number:
    both operands match the same date pattern and the date matcher
    compares nothing else. *)
Theorem any_day_and_word_accepted (d1 w1 d2 w2 : jsstring) :
  day_number d1 = true -> one_word w1 = true ->
  day_number d2 = true -> one_word w2 = true ->
  checkIeltsAnswer (d1 ++ lit " " ++ w1) (d2 ++ lit " " ++ w2) = true
  /\ checkIeltsAnswer (w1 ++ lit " " ++ d1) (w2 ++ lit " " ++ d2) = true.
Proof.
  intros D1 W1 D2 W2. change (lit " ") with [SPACE]. cbn [app].
  pose proof (day_number_one_word d1 D1) as O1.
  pose proof (day_number_one_word d2 D2) as O2.
  rewrite <- day_number_lower in D1, D2.
  pose proof W1 as L1. pose proof W2 as L2.
  rewrite <- one_word_lower in L1, L2.
  split.
  - apply (same_date_pattern_accepted dayMonthPattern); try assumption.
    + right; left; reflexivity.
    + now apply dayMonthPattern_matches.
    + now apply dayMonthPattern_matches.
  - apply (same_date_pattern_accepted monthDayPattern); try assumption.
    + left; reflexivity.
    + now apply monthDayPattern_matches.
    + now apply monthDayPattern_matches.
Qed.

Lemma three_apples_for_seven_pears :
  (day_number (lit "3") = true /\ one_word (lit "Apples") = true
   /\ day_number (lit "27") = true /\ one_word (lit "pears") = true)
  /\ checkIeltsAnswer (lit "3" ++ lit " " ++ lit "Apples")
       (lit "27" ++ lit " " ++ lit "pears") = true
  /\ checkIeltsAnswer (lit "Apples" ++ lit " " ++ lit "3")
       (lit "pears" ++ lit " " ++ lit "27") = true.
Proof.
  assert (D1 : day_number (lit "3") = true) by reflexivity.
  assert (W1 : one_word (lit "Apples") = true) by reflexivity.
  assert (D2 : day_number (lit "27") = true) by reflexivity.
  assert (W2 : one_word (lit "pears") = true) by reflexivity.
  split; [auto|].
  exact (any_day_and_word_accepted (lit "3") (lit "Apples") (lit "27")
           (lit "pears") D1 W1 D2 W2).
Defined.

(** *** The AM and PM replacements of the time matcher *)

Lemma normalizeAmPm_patterns (s : jsstring) :
  normalizeAmPm s =
  replace_all oclockPattern (fun _ => [])
    (replace_all pmPattern (fun _ => lit "pm")
       (replace_all amPattern (fun _ => lit "am") s)).
Proof. reflexivity. Qed.

Lemma plain_text_tail (c : N) (s : jsstring) :
  plain_text (c :: s) -> plain_text s.
Proof. intros H x Hx. apply H. now right. Qed.

(** On a text without full stop the pattern [x\.?m\.?] matches the two
    letters and nothing else. *)
Lemma meridiem_match (a : N) (pos : nat) (s : jsstring) :
  plain_text s ->
  re_match (Cat (chr_i a) (Cat (Opt (chr 46)) (Cat (chr_i 109) (Opt (chr 46)))))
    pos s [] accept =
  match s with
  | c :: d :: rest =>
      if (upper_unit c =? upper_unit a) && (upper_unit d =? upper_unit 109)
      then Some (S (S pos), rest, [])
      else None
  | _ => None
  end.
Proof.
  intros H. destruct s as [|c [|d rest]]; cbn [re_match chr_i chr].
  - reflexivity.
  - now destruct (upper_unit c =? upper_unit a).
  - destruct (upper_unit c =? upper_unit a); [|reflexivity]. cbn [andb].
    rewrite (proj1 (H d (or_intror (or_introl eq_refl)))). cbn [orelse].
    destruct (upper_unit d =? upper_unit 109); [|reflexivity].
    destruct rest as [|e rest]; [reflexivity|].
    rewrite (proj1 (H e (or_intror (or_intror (or_introl eq_refl))))).
    reflexivity.
Qed.

Lemma upper_unit_small (c a : N) :
  is_upper c = false -> in_range 97 122 a = true ->
  (upper_unit c =? upper_unit a) = true -> c = a.
Proof.
  unfold is_upper, upper_unit. intros Hc Ha. rewrite Ha.
  apply in_range_spec in Ha. intros H. apply N.eqb_eq in H.
  destruct (in_range 97 122 c) eqn:E.
  - apply in_range_spec in E. lia.
  - assert (~ 65 <= c <= 90) by (rewrite <- in_range_spec; congruence). lia.
Qed.

(** Replacing [x\.?m\.?] by the two letters leaves such a text as it
    is. *)
Lemma meridiem_replacement_fixed (a : N) (s : jsstring) :
  in_range 97 122 a = true -> plain_text s ->
  replace_all
    (Cat (chr_i a) (Cat (Opt (chr 46)) (Cat (chr_i 109) (Opt (chr 46)))))
    (fun _ => [a; 109]) s = s.
Proof.
  intros Ha Hs. unfold replace_all.
  assert (G : forall n s pos,
             (List.length s <= n)%nat -> plain_text s ->
             replace_all_from
               (Cat (chr_i a)
                  (Cat (Opt (chr 46)) (Cat (chr_i 109) (Opt (chr 46)))))
               (fun _ => [a; 109]) 0 pos s = s).
  { clear s Hs. induction n as [|n IH]; intros s pos L P.
    - destruct s; [reflexivity | simpl in L; lia].
    - destruct s as [|c s]; [reflexivity|].
      cbn [replace_all_from]. rewrite (meridiem_match a pos (c :: s) P).
      destruct s as [|d rest].
      + rewrite (IH [] (S pos)); [reflexivity | simpl; lia | ].
        intros x [].
      + assert (P1 : plain_text (d :: rest))
          by exact (plain_text_tail c _ P).
        assert (P2 : plain_text rest) by exact (plain_text_tail d _ P1).
        destruct ((upper_unit c =? upper_unit a)
                  && (upper_unit d =? upper_unit 109)) eqn:E.
        * apply andb_true_iff in E as [E1 E2].
          apply (upper_unit_small c a) in E1;
            [| exact (proj2 (P c (or_introl eq_refl))) | exact Ha].
          apply (upper_unit_small d 109) in E2;
            [| exact (proj2 (P1 d (or_introl eq_refl))) | reflexivity].
          subst c d.
          replace (S (S pos) - pos)%nat with 2%nat by lia.
          cbn [replace_all_from app].
          rewrite (IH rest (S (S pos))); [reflexivity | simpl in L; lia |].
          exact P2.
        * rewrite (IH (d :: rest) (S pos));
            [reflexivity | simpl in *; lia | exact P1]. }
  exact (G (List.length s) s 0%nat (Nat.le_refl _) Hs).
Qed.

Lemma timeDigits_plain (s : jsstring) : plain_text (timeDigits s).
Proof.
  intros x Hx. unfold timeDigits in Hx. rewrite replace_all_class in Hx.
  unfold replace_class in Hx. apply in_flat_map in Hx as (c & Hc & Hx).
  destruct (dot_or_colon c) eqn:E; [destruct Hx|].
  destruct Hx as [<-|[]]. split.
  - unfold dot_or_colon in E. apply orb_false_iff in E as [E _].
    now rewrite N.eqb_sym.
  - rewrite removeAllSpaces_filter in Hc. apply filter_In in Hc as [Hc _].
    pose proof (normalizeString_no_upper s) as U.
    rewrite forallb_forall in U. specialize (U c Hc).
    now apply negb_true_iff in U.
Qed.

Lemma am_replacement_fixed (s : jsstring) :
  replace_all amPattern (fun _ => lit "am") (timeDigits s) = timeDigits s.
Proof.
  apply (meridiem_replacement_fixed 97); [reflexivity|].
  apply timeDigits_plain.
Qed.

Lemma pm_replacement_fixed (s : jsstring) :
  replace_all pmPattern (fun _ => lit "pm") (timeDigits s) = timeDigits s.
Proof.
  apply (meridiem_replacement_fixed 112); [reflexivity|].
  apply timeDigits_plain.
Qed.

(** X12: in [matchTime] the AM and the PM replacement never change
    their input, which holds no full stop and no capital letter by the
    time they run; the verdict is the equality of the two operands once
    normalized and stripped of white space, full stops, colons and
    "o'clock". *)
Theorem matchTime_without_meridiem_patterns :
  (forall s,
      replace_all amPattern (fun _ => lit "am") (timeDigits s) = timeDigits s)
  /\ (forall s,
         replace_all pmPattern (fun _ => lit "pm") (timeDigits s)
         = timeDigits s)
  /\ (forall userAnswer correctAnswer,
         matchTime userAnswer correctAnswer
         = str_eqb
             (replace_all oclockPattern (fun _ => []) (timeDigits userAnswer))
             (replace_all oclockPattern (fun _ => [])
                (timeDigits correctAnswer))).
Proof.
  split; [exact am_replacement_fixed|].
  split; [exact pm_replacement_fixed|].
  intros u c. unfold matchTime.
  fold (timeDigits u). fold (timeDigits c).
  rewrite !normalizeAmPm_patterns.
  now rewrite !am_replacement_fixed, !pm_replacement_fixed.
Qed.

(** *** Any number of alternatives *)

(** X13: for a non-empty user answer and a list of alternatives
    without ['/'], joined with ['/'] into a non-empty string,
    [checkIeltsAnswer] accepts exactly when the loop body accepts the
    normalized user answer for one alternative, trimmed and normalized;
    when no alternative is empty, exactly when [checkIeltsAnswer]
    accepts the user answer for one alternative alone. *)
Theorem any_number_of_alternatives
        (userAnswer : jsstring) (alternatives : list jsstring) :
  userAnswer <> [] -> join SLASH alternatives <> [] ->
  (forall a, In a alternatives -> ~ In SLASH a) ->
  (checkIeltsAnswer userAnswer (join SLASH alternatives) = true <->
   exists a, In a alternatives
             /\ check_alternative (normalizeString userAnswer)
                  (normalizeString (trim a)) = true)
  /\ ((forall a, In a alternatives -> a <> []) ->
      (checkIeltsAnswer userAnswer (join SLASH alternatives) = true <->
       exists a, In a alternatives /\ checkIeltsAnswer userAnswer a = true)).
Proof.
  intros Nu Nj Hfree.
  pose proof (join_not_nil SLASH alternatives Nj) as Nl.
  assert (M : checkIeltsAnswer userAnswer (join SLASH alternatives) = true <->
              exists a, In a alternatives
                        /\ check_alternative (normalizeString userAnswer)
                             (normalizeString (trim a)) = true).
  { unfold checkIeltsAnswer.
    rewrite (falsy_cons _ Nu), (falsy_cons _ Nj). cbn [orb].
    rewrite checkIelts_loop_true. unfold acceptableAnswers.
    rewrite split_join by assumption. split.
    - intros (c & Hc & H). apply in_map_iff in Hc as (a & <- & Ha).
      exists a. auto.
    - intros (a & Ha & H). exists (normalizeString (trim a)).
      split; [|exact H].
      apply (in_map (fun a => normalizeString (trim a))), Ha. }
  split; [exact M|].
  intros Ne. rewrite M. split; intros (a & Ha & H); exists a;
    (split; [exact Ha|]).
  - rewrite (checkIeltsAnswer_single _ _ (Hfree a Ha)).
    rewrite (falsy_cons _ Nu), (falsy_cons _ (Ne a Ha)). cbn [orb].
    now rewrite <- (normalizeString_trim a).
  - rewrite (checkIeltsAnswer_single _ _ (Hfree a Ha)) in H.
    rewrite (falsy_cons _ Nu), (falsy_cons _ (Ne a Ha)) in H.
    cbn [orb] in H. now rewrite (normalizeString_trim a).
Qed.

Lemma four_alternatives_for_twelve :
  checkIeltsAnswer (lit "12")
    (join SLASH [lit "ten"; lit "eleven"; lit "twelve"; lit "a dozen"])
  = true <->
  exists a, In a [lit "ten"; lit "eleven"; lit "twelve"; lit "a dozen"]
            /\ checkIeltsAnswer (lit "12") a = true.
Proof.
  assert (Nu : lit "12" <> []) by discriminate.
  assert (Nj : join SLASH [lit "ten"; lit "eleven"; lit "twelve";
                           lit "a dozen"] <> []) by discriminate.
  assert (F : forall a, In a [lit "ten"; lit "eleven"; lit "twelve";
                              lit "a dozen"] -> ~ In SLASH a).
  { intros a [<-|[<-|[<-|[<-|[]]]]]; no_slash. }
  assert (Ne : forall a, In a [lit "ten"; lit "eleven"; lit "twelve";
                               lit "a dozen"] -> a <> []).
  { intros a [<-|[<-|[<-|[<-|[]]]]]; discriminate. }
  exact (proj2 (any_number_of_alternatives (lit "12") _ Nu Nj F) Ne).
Defined.

(** *** The digit 0 written for the letter o *)

Lemma zero_for_o_phone (s : jsstring) :
  normalizePhone (replace_all (Class letter_o) (fun _ => lit "0") s)
  = normalizePhone s.
Proof.
  assert (E : replace_all (Class letter_o) (fun _ => lit "0")
                (removeAllSpaces (toLowerCase
                   (replace_all (Class letter_o) (fun _ => lit "0") s)))
              = replace_all (Class letter_o) (fun _ => lit "0")
                  (removeAllSpaces (toLowerCase s))).
  { rewrite !replace_all_class, !removeAllSpaces_filter.
    unfold replace_class, toLowerCase.
    induction s as [|c s IH]; [reflexivity|].
    cbn [flat_map List.map]. rewrite map_app, filter_app, flat_map_app, IH.
    change (lower_unit c :: List.map lower_unit s)
      with ([lower_unit c] ++ List.map lower_unit s).
    rewrite filter_app, flat_map_app. f_equal.
    destruct (letter_o c) eqn:Eo; [|reflexivity].
    unfold letter_o in Eo. apply orb_true_iff in Eo.
    destruct Eo as [Eo|Eo]; apply N.eqb_eq in Eo; subst c; reflexivity. }
  unfold normalizePhone.
  fold (removeAllSpaces (toLowerCase s)).
  fold (removeAllSpaces (toLowerCase
          (replace_all (Class letter_o) (fun _ => lit "0") s))).
  now rewrite E.
Qed.

Lemma zero_for_o_keeps_slash_free (s : jsstring) :
  ~ In SLASH s -> ~ In SLASH (replace_all (Class letter_o) (fun _ => lit "0") s).
Proof.
  intros H Hin. rewrite replace_all_class in Hin. unfold replace_class in Hin.
  apply in_flat_map in Hin as (c & Hc & Hin).
  destruct (letter_o c); destruct Hin as [E|[]];
    [discriminate E | subst c; tauto].
Qed.

(** X14: writing the digit 0 for every letter o of a non-empty correct
    answer without ['/'] gives an answer that [checkIeltsAnswer]
    accepts, and the correct answer is accepted for it as well.  The
    correct answer is made of Basic Latin characters and white space,
    the strings on which [toLowerCase] is the case mapping of the
    code. *)
Theorem zero_for_letter_o_accepted (correctAnswer : jsstring) :
  basic_latin correctAnswer = true ->
  correctAnswer <> [] -> ~ In SLASH correctAnswer ->
  checkIeltsAnswer
    (replace_all (Class letter_o) (fun _ => lit "0") correctAnswer)
    correctAnswer = true
  /\ checkIeltsAnswer correctAnswer
       (replace_all (Class letter_o) (fun _ => lit "0") correctAnswer)
     = true.
Proof.
  intros _ Nc Hfree.
  set (z := replace_all (Class letter_o) (fun _ => lit "0") correctAnswer).
  assert (Nz : z <> []).
  { unfold z. rewrite replace_all_class. unfold replace_class.
    destruct correctAnswer as [|c s]; [congruence|]. cbn [flat_map].
    destruct (letter_o c); discriminate. }
  pose proof (zero_for_o_keeps_slash_free correctAnswer Hfree) as Fz.
  fold z in Fz. split.
  - apply (checkIelts_phone_piece z correctAnswer correctAnswer);
      try assumption.
    + rewrite split_free by exact Hfree. now left.
    + apply zero_for_o_phone.
  - apply (checkIelts_phone_piece correctAnswer z z); try assumption.
    + rewrite split_free by exact Fz. now left.
    + symmetry. apply zero_for_o_phone.
Qed.

Lemma zero_for_o_in_hotel_room :
  (basic_latin (lit "Hotel Room") = true
   /\ lit "Hotel Room" <> [] /\ ~ In SLASH (lit "Hotel Room"))
  /\ checkIeltsAnswer (lit "H0tel R00m") (lit "Hotel Room") = true
  /\ checkIeltsAnswer (lit "Hotel Room") (lit "H0tel R00m") = true.
Proof.
  assert (B : basic_latin (lit "Hotel Room") = true) by reflexivity.
  assert (N : lit "Hotel Room" <> []) by discriminate.
  assert (F : ~ In SLASH (lit "Hotel Room")) by no_slash.
  split; [auto 10|].
  exact (zero_for_letter_o_accepted (lit "Hotel Room") B N F).
Defined.

(** *** Plural forms and leading articles *)

Lemma spaced_append (b : bool) (x w : jsstring) :
  spaced_from b x = true -> one_word w = true ->
  spaced_from b (x ++ w) = true.
Proof.
  intros H Hw. revert b H; induction x as [|c x IH]; intros b H.
  - simpl in H. apply negb_true_iff in H. subst b.
    rewrite <- (app_nil_r w). simpl.
    now rewrite (spaced_after_word false w [] Hw).
  - simpl in *. destruct (is_ws c).
    + apply andb_true_iff in H as [H1 H2]. rewrite H1. now apply IH.
    + now apply IH.
Qed.

Lemma normal_form_append (x w : jsstring) :
  normal_form x = true -> x <> [] -> one_word w = true ->
  forallb (fun c => negb (is_upper c)) w = true ->
  normal_form (x ++ w) = true.
Proof.
  unfold normal_form. intros H Nx Hw Uw.
  apply andb_true_iff in H as [Ux Sx].
  rewrite forallb_app, Ux, Uw. cbn [andb].
  destruct x as [|c x]; [congruence|]. unfold well_spaced in *.
  change ((c :: x) ++ w) with (c :: (x ++ w)).
  change (c :: (x ++ w)) with ((c :: x) ++ w).
  now apply spaced_append.
Qed.

Lemma checkIeltsAnswer_normal (x y : jsstring) :
  normal_form x = true -> normal_form y = true ->
  x <> [] -> y <> [] -> ~ In SLASH y ->
  checkIeltsAnswer x y = check_alternative x y.
Proof.
  intros Hx Hy Nx Ny Fy.
  rewrite (checkIeltsAnswer_single x y Fy).
  rewrite (falsy_cons _ Nx), (falsy_cons _ Ny). cbn [orb].
  now rewrite (normal_form_fixed x Hx), (normal_form_fixed y Hy).
Qed.

Lemma check_alternative_suffix (x s : jsstring) :
  s = lit "s" \/ s = lit "es" ->
  check_alternative (x ++ s) x = true /\ check_alternative x (x ++ s) = true.
Proof.
  intros [->| ->]; rewrite !check_alternative_rules, !str_eqb_refl;
    split; now rewrite ?orb_true_r.
Qed.

Lemma append_no_slash (x w : jsstring) :
  ~ In SLASH x -> ~ In SLASH w -> ~ In SLASH (x ++ w).
Proof. intros Hx Hw H. apply in_app_or in H. tauto. Qed.

(** X15: for a non-empty answer [x] in normal form without ['/'],
    [checkIeltsAnswer] accepts [x] followed by "s" or by "es" for [x],
    and [x] for [x] followed by "s" or by "es".  The answer is made of
    Basic Latin characters and white space, the strings on which
    [toLowerCase] is the case mapping of the code. *)
Theorem plural_suffix_tolerated (x : jsstring) :
  basic_latin x = true ->
  normal_form x = true -> x <> [] -> ~ In SLASH x ->
  checkIeltsAnswer (x ++ lit "s") x = true
  /\ checkIeltsAnswer x (x ++ lit "s") = true
  /\ checkIeltsAnswer (x ++ lit "es") x = true
  /\ checkIeltsAnswer x (x ++ lit "es") = true.
Proof.
  intros _ Hx Nx Fx.
  assert (S1 : normal_form (x ++ lit "s") = true)
    by (apply normal_form_append; auto).
  assert (S2 : normal_form (x ++ lit "es") = true)
    by (apply normal_form_append; auto).
  assert (N1 : x ++ lit "s" <> []) by (destruct x; discriminate).
  assert (N2 : x ++ lit "es" <> []) by (destruct x; discriminate).
  assert (F1 : ~ In SLASH (x ++ lit "s"))
    by (apply append_no_slash; [exact Fx | no_slash]).
  assert (F2 : ~ In SLASH (x ++ lit "es"))
    by (apply append_no_slash; [exact Fx | no_slash]).
  rewrite !checkIeltsAnswer_normal by assumption.
  destruct (check_alternative_suffix x (lit "s") (or_introl eq_refl)).
  destruct (check_alternative_suffix x (lit "es") (or_intror eq_refl)).
  auto.
Qed.

Lemma plural_of_bus_stop :
  (basic_latin (lit "bus stop") = true
   /\ normal_form (lit "bus stop") = true /\ lit "bus stop" <> []
   /\ ~ In SLASH (lit "bus stop"))
  /\ checkIeltsAnswer (lit "bus stop" ++ lit "s") (lit "bus stop") = true
  /\ checkIeltsAnswer (lit "bus stop") (lit "bus stop" ++ lit "s") = true
  /\ checkIeltsAnswer (lit "bus stop" ++ lit "es") (lit "bus stop") = true
  /\ checkIeltsAnswer (lit "bus stop") (lit "bus stop" ++ lit "es") = true.
Proof.
  assert (B : basic_latin (lit "bus stop") = true) by reflexivity.
  assert (H : normal_form (lit "bus stop") = true) by reflexivity.
  assert (N : lit "bus stop" <> []) by discriminate.
  assert (F : ~ In SLASH (lit "bus stop")) by no_slash.
  split; [auto 10|].
  exact (plural_suffix_tolerated (lit "bus stop") B H N F).
Defined.

Lemma replace_first_from_anchored (r : regex) (by_ : captures -> jsstring)
      (pos : nat) (s : jsstring) :
  replace_first_from (Cat Bol r) by_ (S pos) s = s.
Proof.
  revert pos; induction s as [|c s IH]; intros pos; [reflexivity|].
  cbn [replace_first_from re_match]. now rewrite IH.
Qed.

(** A replacement anchored at the start happens at index 0 or not at
    all. *)
Lemma replace_first_anchored (r : regex) (by_ : captures -> jsstring)
      (s : jsstring) :
  replace_first (Cat Bol r) by_ s =
  match re_match r 0 s [] accept with
  | Some (_, rest, cs) => by_ cs ++ rest
  | None => s
  end.
Proof.
  unfold replace_first. destruct s as [|c s];
    cbn [replace_first_from re_match].
  - now destruct (re_match r 0 [] [] accept) as [[[? ?] ?]|].
  - destruct (re_match r 0 (c :: s) [] accept) as [[[? ?] ?]|];
      [reflexivity|]. now rewrite replace_first_from_anchored.
Qed.

Lemma spaced_ws_is_space (b : bool) (x : jsstring) (d : N) :
  spaced_from b x = true -> In d x -> is_ws d = true -> d = 32.
Proof.
  revert b; induction x as [|c x IH]; intros b H Hin Hd; [destruct Hin|].
  destruct Hin as [<-|Hin].
  - simpl in H. rewrite Hd in H. apply andb_true_iff in H as [H _].
    apply andb_true_iff in H as [H _]. now apply N.eqb_eq in H.
  - simpl in H. destruct (is_ws c).
    + apply andb_true_iff in H as [_ H]. exact (IH true H Hin Hd).
    + exact (IH false H Hin Hd).
Qed.

Lemma spaced_starts_off_space (x : jsstring) :
  spaced_from true x = true -> run_length is_ws x = 0%nat.
Proof.
  destruct x as [|c x]; [reflexivity|]. simpl.
  destruct (is_ws c); [|reflexivity].
  intros H. apply andb_true_iff in H as [H _].
  apply andb_true_iff in H as [_ H]. discriminate H.
Qed.

Lemma space_then_text (pos : nat) (x : jsstring) (cs : captures) :
  spaced_from true x = true ->
  rep is_ws 1 None pos (32 :: x) (fun pos' s' => accept pos' s' cs)
  = Some (S pos, x, cs).
Proof.
  intros H. apply rep_greedy.
  - simpl. lia.
  - change (run_length is_ws (32 :: x)) with (S (run_length is_ws x)).
    rewrite (spaced_starts_off_space x H). cbn [skipn]. unfold accept.
    now rewrite Nat.add_1_r.
Qed.

(** White space inside a text in normal form is a SPACE: when
    [/\s+/] matches at a unit of it, that unit is a SPACE. *)
Lemma space_needed (pos : nat) (d : N) (rest : jsstring)
      (k : nat -> jsstring -> option outcome) :
  d <> 32 -> (is_ws d = true -> d = 32) ->
  rep is_ws 1 None pos (d :: rest) k = None.
Proof.
  intros Nd H. apply rep_off_run. simpl.
  destruct (is_ws d); [|reflexivity]. now destruct Nd; apply H.
Qed.

Lemma the_prefix_removed (x : jsstring) :
  spaced_from true x = true ->
  re_match (Cat (word "the") (plus is_ws)) 0 (lit "the " ++ x) [] accept
  = Some (4%nat, x, []).
Proof.
  intros H. change (word "the") with (Cat (chr 116) (Cat (chr 104) (chr 101))).
  change (lit "the " ++ x) with (116 :: 104 :: 101 :: 32 :: x).
  cbn [re_match chr plus]. rewrite !N.eqb_refl.
  exact (space_then_text 3 x [] H).
Qed.

Lemma the_prefix_absent (x : jsstring) :
  spaced_from true x = true -> firstn 4 x <> lit "the " ->
  re_match (Cat (word "the") (plus is_ws)) 0 x [] accept = None.
Proof.
  intros H Hn. change (word "the") with (Cat (chr 116) (Cat (chr 104) (chr 101))).
  destruct x as [|a [|b [|c [|d rest]]]]; cbn [re_match chr plus];
    try reflexivity.
  - now destruct (116 =? a).
  - destruct (116 =? a); [|reflexivity]. now destruct (104 =? b).
  - destruct (116 =? a); [|reflexivity]. destruct (104 =? b); [|reflexivity].
    now destruct (101 =? c).
  - destruct (N.eqb_spec 116 a) as [<-|]; [|reflexivity].
    destruct (N.eqb_spec 104 b) as [<-|]; [|reflexivity].
    destruct (N.eqb_spec 101 c) as [<-|]; [|reflexivity].
    apply space_needed.
    + intros ->. now apply Hn.
    + apply (spaced_ws_is_space true _ d H). simpl. tauto.
Qed.

Lemma withoutThe_prefix (x : jsstring) :
  spaced_from true x = true -> firstn 4 x <> lit "the " ->
  withoutThe (lit "the " ++ x) = withoutThe x.
Proof.
  intros H Hn. unfold withoutThe. cbn [seq]. f_equal.
  rewrite !replace_first_anchored.
  now rewrite (the_prefix_removed x H), (the_prefix_absent x H Hn).
Qed.

Lemma normal_form_after_word (w x : jsstring) :
  one_word w = true -> forallb (fun c => negb (is_upper c)) w = true ->
  normal_form x = true -> x <> [] ->
  normal_form (w ++ SPACE :: x) = true.
Proof.
  unfold normal_form. intros Hw Uw H Nx.
  apply andb_true_iff in H as [Ux Sx].
  rewrite forallb_app. cbn [forallb]. rewrite Uw, Ux. cbn.
  assert (E : well_spaced (w ++ SPACE :: x)
              = spaced_from true (w ++ SPACE :: x)).
  { destruct w; [discriminate Hw | reflexivity]. }
  rewrite E, (spaced_after_word true w _ Hw). cbn.
  destruct x; [congruence | exact Sx].
Qed.

Lemma normal_form_spaced (x : jsstring) :
  normal_form x = true -> x <> [] -> spaced_from true x = true.
Proof.
  unfold normal_form. intros H Nx. apply andb_true_iff in H as [_ H].
  destruct x; [congruence | exact H].
Qed.

(** X16: for a non-empty answer [x] in normal form without ['/'] that
    does not itself start with "the" and a SPACE, [checkIeltsAnswer]
    accepts "the", a SPACE and [x] for [x], and [x] for "the", a SPACE
    and [x]. *)
Theorem leading_the_tolerated (x : jsstring) :
  normal_form x = true -> x <> [] -> ~ In SLASH x ->
  firstn 4 x <> lit "the " ->
  checkIeltsAnswer (lit "the " ++ x) x = true
  /\ checkIeltsAnswer x (lit "the " ++ x) = true.
Proof.
  intros Hx Nx Fx Hn.
  pose proof (normal_form_spaced x Hx Nx) as Sx.
  assert (Ht : normal_form (lit "the " ++ x) = true).
  { change (lit "the " ++ x) with (lit "the" ++ SPACE :: x).
    apply normal_form_after_word; auto. }
  assert (Nt : lit "the " ++ x <> []) by discriminate.
  assert (Ft : ~ In SLASH (lit "the " ++ x))
    by (apply append_no_slash; [no_slash | exact Fx]).
  rewrite !checkIeltsAnswer_normal by assumption.
  rewrite !check_alternative_rules.
  rewrite (withoutThe_prefix x Sx Hn), !str_eqb_refl.
  split; now rewrite ?orb_true_r.
Qed.

Lemma the_beach_for_beach :
  (normal_form (lit "beach") = true /\ lit "beach" <> []
   /\ ~ In SLASH (lit "beach") /\ firstn 4 (lit "beach") <> lit "the ")
  /\ checkIeltsAnswer (lit "the " ++ lit "beach") (lit "beach") = true
  /\ checkIeltsAnswer (lit "beach") (lit "the " ++ lit "beach") = true.
Proof.
  assert (H : normal_form (lit "beach") = true) by reflexivity.
  assert (N : lit "beach" <> []) by discriminate.
  assert (F : ~ In SLASH (lit "beach")) by no_slash.
  assert (P : firstn 4 (lit "beach") <> lit "the ") by discriminate.
  split; [auto|].
  exact (leading_the_tolerated (lit "beach") H N F P).
Defined.

Lemma article_a_removed (x : jsstring) :
  spaced_from true x = true ->
  exists cs,
    re_match (Cat (Group 1 (Alt (word "a") (word "an"))) (plus is_ws))
      0 (lit "a " ++ x) [] accept = Some (2%nat, x, cs).
Proof.
  intros H. change (word "a") with (chr 97).
  change (lit "a " ++ x) with (97 :: 32 :: x).
  cbn [re_match chr plus]. rewrite N.eqb_refl.
  rewrite (space_then_text 1 x _ H). cbn [orelse]. eexists. reflexivity.
Qed.

Lemma article_an_removed (x : jsstring) :
  spaced_from true x = true ->
  exists cs,
    re_match (Cat (Group 1 (Alt (word "a") (word "an"))) (plus is_ws))
      0 (lit "an " ++ x) [] accept = Some (3%nat, x, cs).
Proof.
  intros H. change (word "a") with (chr 97).
  change (word "an") with (Cat (chr 97) (chr 110)).
  change (lit "an " ++ x) with (97 :: 110 :: 32 :: x).
  cbn [re_match chr plus]. rewrite !N.eqb_refl.
  rewrite (rep_off_run is_ws 0 None 1 (110 :: 32 :: x)) by reflexivity.
  cbn [orelse]. rewrite (space_then_text 2 x _ H). eexists. reflexivity.
Qed.

Lemma article_absent (x : jsstring) :
  spaced_from true x = true ->
  firstn 2 x <> lit "a " -> firstn 3 x <> lit "an " ->
  re_match (Cat (Group 1 (Alt (word "a") (word "an"))) (plus is_ws))
    0 x [] accept = None.
Proof.
  intros H Ha Han. change (word "a") with (chr 97).
  change (word "an") with (Cat (chr 97) (chr 110)).
  destruct x as [|a rest]; [reflexivity|].
  cbn [re_match chr plus].
  destruct (N.eqb_spec 97 a) as [<-|]; [|reflexivity].
  assert (First : forall k, rep is_ws 1 None 1 rest k = None).
  { intros k. destruct rest as [|d r]; [reflexivity|].
    apply space_needed.
    - intros ->. now apply Ha.
    - apply (spaced_ws_is_space true _ d H). simpl. tauto. }
  rewrite First. cbn [orelse].
  destruct rest as [|n r]; [reflexivity|].
  destruct (N.eqb_spec 110 n) as [<-|]; [|reflexivity].
  destruct r as [|d r]; [reflexivity|].
  apply space_needed.
  - intros ->. now apply Han.
  - apply (spaced_ws_is_space true _ d H). simpl. tauto.
Qed.

Lemma withoutArticle_prefix (x : jsstring) :
  spaced_from true x = true ->
  firstn 2 x <> lit "a " -> firstn 3 x <> lit "an " ->
  withoutArticle x = x
  /\ withoutArticle (lit "a " ++ x) = x
  /\ withoutArticle (lit "an " ++ x) = x.
Proof.
  intros H Ha Han. unfold withoutArticle. cbn [seq].
  rewrite !replace_first_anchored.
  rewrite (article_absent x H Ha Han).
  destruct (article_a_removed x H) as [c1 ->].
  destruct (article_an_removed x H) as [c2 ->].
  auto.
Qed.

(** X17: for a non-empty answer [x] in normal form without ['/'] that
    does not itself start with "a" or "an" and a SPACE,
    [checkIeltsAnswer] accepts [x] with "a" or "an" and a SPACE in
    front for [x], and [x] for either of them. *)
Theorem leading_article_tolerated (x : jsstring) :
  normal_form x = true -> x <> [] -> ~ In SLASH x ->
  firstn 2 x <> lit "a " -> firstn 3 x <> lit "an " ->
  checkIeltsAnswer (lit "a " ++ x) x = true
  /\ checkIeltsAnswer x (lit "a " ++ x) = true
  /\ checkIeltsAnswer (lit "an " ++ x) x = true
  /\ checkIeltsAnswer x (lit "an " ++ x) = true.
Proof.
  intros Hx Nx Fx Ha Han.
  pose proof (normal_form_spaced x Hx Nx) as Sx.
  assert (H1 : normal_form (lit "a " ++ x) = true).
  { change (lit "a " ++ x) with (lit "a" ++ SPACE :: x).
    apply normal_form_after_word; auto. }
  assert (H2 : normal_form (lit "an " ++ x) = true).
  { change (lit "an " ++ x) with (lit "an" ++ SPACE :: x).
    apply normal_form_after_word; auto. }
  assert (N1 : lit "a " ++ x <> []) by discriminate.
  assert (N2 : lit "an " ++ x <> []) by discriminate.
  assert (F1 : ~ In SLASH (lit "a " ++ x))
    by (apply append_no_slash; [no_slash | exact Fx]).
  assert (F2 : ~ In SLASH (lit "an " ++ x))
    by (apply append_no_slash; [no_slash | exact Fx]).
  rewrite !checkIeltsAnswer_normal by assumption.
  rewrite !check_alternative_rules.
  destruct (withoutArticle_prefix x Sx Ha Han) as (-> & -> & ->).
  rewrite !str_eqb_refl. repeat split; now rewrite ?orb_true_r.
Qed.

Lemma an_umbrella_for_umbrella :
  (normal_form (lit "umbrella") = true /\ lit "umbrella" <> []
   /\ ~ In SLASH (lit "umbrella")
   /\ firstn 2 (lit "umbrella") <> lit "a "
   /\ firstn 3 (lit "umbrella") <> lit "an ")
  /\ checkIeltsAnswer (lit "a " ++ lit "umbrella") (lit "umbrella") = true
  /\ checkIeltsAnswer (lit "umbrella") (lit "a " ++ lit "umbrella") = true
  /\ checkIeltsAnswer (lit "an " ++ lit "umbrella") (lit "umbrella") = true
  /\ checkIeltsAnswer (lit "umbrella") (lit "an " ++ lit "umbrella") = true.
Proof.
  assert (H : normal_form (lit "umbrella") = true) by reflexivity.
  assert (N : lit "umbrella" <> []) by discriminate.
  assert (F : ~ In SLASH (lit "umbrella")) by no_slash.
  assert (P1 : firstn 2 (lit "umbrella") <> lit "a ") by discriminate.
  assert (P2 : firstn 3 (lit "umbrella") <> lit "an ") by discriminate.
  split; [auto 6|].
  exact (leading_article_tolerated (lit "umbrella") H N F P1 P2).
Defined.

(** *** The double pattern and the measurement matcher *)

(** X18: the pattern for "double" never matches a text without the
    letter o, and [normalizePhone] hands it such a text: for every
    string the phone normalization is lowercase, no white space, o to
    0, and the triple pattern only. *)
Theorem double_pattern_never_fires :
  (forall t, (forall x, In x t -> letter_o x = false) ->
             replace_all doublePattern (fun m => dollar 1 m ++ dollar 1 m) t
             = t)
  /\ (forall s,
         normalizePhone s =
         replace_all triplePattern
           (fun m => dollar 1 m ++ dollar 1 m ++ dollar 1 m)
           (replace_all (Class letter_o) (fun _ => lit "0")
              (removeAllSpaces (toLowerCase s)))).
Proof.
  assert (D : forall t, (forall x, In x t -> letter_o x = false) ->
                        replace_all doublePattern
                          (fun m => dollar 1 m ++ dollar 1 m) t = t).
  { intros t Ht. apply replace_all_no_match. intros pos u Hu.
    change doublePattern with
      (Cat (Cat (chr_i 100) (Cat (chr_i 111) (word_i "uble")))
           (seq [star is_ws; Group 1 (Class is_digit)])).
    apply second_literal_blocks.
    intros x Hx. apply letter_o_upper, Ht, Hu, Hx. }
  split; [exact D|].
  intros s. unfold normalizePhone. fold (removeAllSpaces (toLowerCase s)).
  rewrite D; [reflexivity|].
  intros x Hx. exact (letter_o_replaced _ x Hx).
Qed.

Lemma double_five_left_alone :
  (forall x, In x (lit "d0uble5") -> letter_o x = false)
  /\ replace_all doublePattern (fun m => dollar 1 m ++ dollar 1 m)
       (lit "d0uble5") = lit "d0uble5".
Proof.
  assert (H : forall x, In x (lit "d0uble5") -> letter_o x = false).
  { intros x Hx. simpl in Hx.
    repeat (destruct Hx as [<-|Hx]; [reflexivity|]). destruct Hx. }
  split; [exact H|].
  exact (proj1 double_pattern_never_fires (lit "d0uble5") H).
Defined.

(** X19: [matchMeasurement] accepts exactly when both normalized
    operands are a number (digits, commas, full stops), white space or
    none, and a unit word, the two numbers are equal once the commas
    are removed, and one family of MEASUREMENT_VARIATIONS holds both
    unit words in lowercase. *)
Theorem measurement_match_in_words (userAnswer correctAnswer : jsstring) :
  matchMeasurement userAnswer correctAnswer = true <->
  exists userNum userUnit correctNum correctUnit,
    measure_shape (normalizeString userAnswer) userNum userUnit
    /\ measure_shape (normalizeString correctAnswer) correctNum correctUnit
    /\ remove_commas userNum = remove_commas correctNum
    /\ exists variations,
        In variations (values MEASUREMENT_VARIATIONS)
        /\ In (toLowerCase userUnit) variations
        /\ In (toLowerCase correctUnit) variations.
Proof.
  split.
  - intros H. apply matchMeasurement_true in H
      as (um & cm & Hu & Hc & Hn & Hv).
    exists (dollar 1 um), (dollar 2 um), (dollar 1 cm), (dollar 2 cm).
    repeat split; try assumption; now apply measurePattern_sound.
  - intros (n1 & u1 & n2 & u2 & S1 & S2 & Hn & fam & Hf & I1 & I2).
    pose proof (units_start_with_letters fam _ Hf I1) as D1.
    pose proof (units_start_with_letters fam _ Hf I2) as D2.
    rewrite starts_with_digit_lower in D1, D2.
    destruct (measurePattern_complete _ _ _ S1 D1) as (um & Eu & <- & <-).
    destruct (measurePattern_complete _ _ _ S2 D2) as (cm & Ec & <- & <-).
    apply matchMeasurement_true.
    exists um, cm. repeat split; try assumption. exists fam. tauto.
Qed.

End Coverage.
